(** * Nurdd: the scrape-and-enhance pipeline

    A shallow embedding of [src/services/scrapingService.js]
    (class [WebsiteScrapingService]) and [src/services/aiEnhancementService.js]
    (class [AIEnhancementService]), with the properties the specification
    states about them.

    JavaScript strings are sequences of UTF-16 code units; [length],
    [substring], [trim] and the regular expressions of the source all work
    on code units, so a string is a [list N] here.  Exceptions are explicit
    ([Completion]); the calls to the browser, to the page and to the remote
    model are recorded in a trace and answered by a [World].

    Three pieces of the platform are parameters: the Unicode upper-case
    mapping outside ASCII, the URL parser behind [new URL], and the HTML
    parser behind [cheerio.load].  Every thrown value is an [Error] with a
    string [message], as the [catch] blocks of the source take for granted.
    The lines written to the logger are left out: nothing they return is
    read, and the logger is taken not to throw. *)

From Stdlib Require Import List NArith Bool Arith Lia Ascii String.
Import ListNotations.

(* ================================================================= *)
(** ** JavaScript strings *)

Module JsString.

Definition codeunit := N.
Definition jsstring := list codeunit.

(** A source literal (ASCII only) as a string of code units. *)
Definition js (s : string) : jsstring :=
  map N_of_ascii (list_ascii_of_string s).

Definition LT_SIGN : codeunit := 60%N.      (* '<' *)
Definition GT_SIGN : codeunit := 62%N.      (* '>' *)
Definition SPACE : codeunit := 32%N.        (* ' ' *)
Definition DQUOTE : codeunit := 34%N.       (* the double quote *)
Definition SQUOTE : codeunit := 39%N.       (* the single quote *)
Definition DOT : codeunit := 46%N.          (* '.' *)
Definition BANG : codeunit := 33%N.         (* '!' *)
Definition QMARK : codeunit := 63%N.        (* '?' *)

(** ECMAScript WhiteSpace and LineTerminator code points: what
    [String.prototype.trim] strips and what [\s] matches. *)
Definition isWhiteSpace (c : codeunit) : bool :=
  ((9 <=? c) && (c <=? 13) || (c =? 32) || (c =? 160) || (c =? 5760)
   || (8192 <=? c) && (c <=? 8202) || (c =? 8232) || (c =? 8233)
   || (c =? 8239) || (c =? 8287) || (c =? 12288) || (c =? 65279))%N.

(** [[a-z]] *)
Definition isLower (c : codeunit) : bool := ((97 <=? c) && (c <=? 122))%N.

(** [[.!?]] *)
Definition isTerminal (c : codeunit) : bool :=
  ((c =? DOT) || (c =? BANG) || (c =? QMARK))%N.

(** The class of the two quote characters, double and single. *)
Definition isQuote (c : codeunit) : bool :=
  ((c =? DQUOTE) || (c =? SQUOTE))%N.

Fixpoint eqb (s t : jsstring) : bool :=
  match s, t with
  | [], [] => true
  | c :: s', d :: t' => (c =? d)%N && eqb s' t'
  | _, _ => false
  end.

(** [s.startsWith(p)] *)
Fixpoint startsWith (p s : jsstring) : bool :=
  match p, s with
  | [], _ => true
  | c :: p', d :: s' => (c =? d)%N && startsWith p' s'
  | _ :: _, [] => false
  end.

(** [s.includes(p)] *)
Fixpoint includes (s p : jsstring) : bool :=
  startsWith p s ||
  match s with
  | [] => false
  | _ :: s' => includes s' p
  end.

(** [s.split(sep)[0]] for a non-empty separator: what precedes the first
    occurrence of [sep], the whole of [s] when there is none. *)
Fixpoint splitFirst (sep s : jsstring) : jsstring :=
  match s with
  | [] => []
  | c :: s' => if startsWith sep s then [] else c :: splitFirst sep s'
  end.

(** [s.substring(0, n)] *)
Definition substring0 (n : nat) (s : jsstring) : jsstring := firstn n s.

Fixpoint trimStart (s : jsstring) : jsstring :=
  match s with
  | [] => []
  | c :: s' => if isWhiteSpace c then trimStart s' else s
  end.

Definition trimEnd (s : jsstring) : jsstring := rev (trimStart (rev s)).

(** [s.trim()] *)
Definition trim (s : jsstring) : jsstring := trimEnd (trimStart s).

(** [/[.!?]$/.test(s)]: without the [m] flag [$] is the end of the input. *)
Definition endsWithTerminal (s : jsstring) : bool :=
  match rev s with
  | [] => false
  | c :: _ => isTerminal c
  end.

(** *** Global replacement

    [s.replace(/re/g, ...)] scans [s] from the left: where the expression
    matches, the replacement is emitted and the scan resumes after the
    match; elsewhere one code unit is copied.  A [matcher] tries the
    expression at the head of its argument and answers the replacement
    with what follows the match.  None of the expressions of the source
    matches the empty string, so [length s] steps always suffice. *)
Definition matcher := jsstring -> option (jsstring * jsstring).

Fixpoint replaceAllFuel (fuel : nat) (m : matcher) (s : jsstring) : jsstring :=
  match fuel with
  | O => s
  | S fuel' =>
      match s with
      | [] => []
      | c :: s' =>
          match m s with
          | Some (replacement, rest) => replacement ++ replaceAllFuel fuel' m rest
          | None => c :: replaceAllFuel fuel' m s'
          end
      end
  end.

Definition replaceAll (m : matcher) (s : jsstring) : jsstring :=
  replaceAllFuel (List.length s) m s.

(** What follows the first ['>'] of [s]. *)
Fixpoint afterGt (s : jsstring) : option jsstring :=
  match s with
  | [] => None
  | c :: s' => if (c =? GT_SIGN)%N then Some s' else afterGt s'
  end.

(** [/<[^>]*>/] with replacement [''] *)
Definition matchTag : matcher := fun s =>
  match s with
  | c :: s' =>
      if (c =? LT_SIGN)%N then
        match afterGt s' with
        | Some rest => Some ([], rest)
        | None => None
        end
      else None
  | [] => None
  end.

(** [/\s+/] with replacement [' '] *)
Definition matchSpaces : matcher := fun s =>
  match s with
  | c :: s' => if isWhiteSpace c then Some ([SPACE], trimStart s') else None
  | [] => None
  end.

(** [/([.!?])\s*([a-z])/] with replacement ['$1 $2'].  [\s*] is greedy,
    and a shorter run would leave a white space where [[a-z]] is due, so
    the expression matches exactly when the code unit after the whole run
    is a lower-case letter. *)
Definition matchSentenceGap : matcher := fun s =>
  match s with
  | c :: s' =>
      if isTerminal c then
        match trimStart s' with
        | l :: rest => if isLower l then Some ([c; SPACE; l], rest) else None
        | [] => None
        end
      else None
  | [] => None
  end.

Definition stripTags : jsstring -> jsstring := replaceAll matchTag.
Definition collapseSpaces : jsstring -> jsstring := replaceAll matchSpaces.
Definition fixSentenceGaps : jsstring -> jsstring := replaceAll matchSentenceGap.

End JsString.

Import JsString.
Arguments js s%_string.

(* ================================================================= *)
(** ** Exceptions *)

(** A thrown [Error]; only its [message] is ever read. *)
Record JsError := mkError { message : jsstring }.

Inductive Completion (A : Type) : Type :=
| Normal (a : A)
| Throw (e : JsError).
Arguments Normal {A} a.
Arguments Throw {A} e.

Definition cbind {A B} (c : Completion A) (k : A -> Completion B) : Completion B :=
  match c with
  | Normal a => k a
  | Throw e => Throw e
  end.

(** [try { c } catch (e) { h e }] for code without side effects. *)
Definition ccatch {A} (c : Completion A) (h : JsError -> Completion A) : Completion A :=
  match c with
  | Normal a => Normal a
  | Throw e => h e
  end.

(** A value that may be [undefined]: [v || fallback]. *)
Definition truthy (v : option jsstring) : bool :=
  match v with
  | Some (_ :: _) => true
  | _ => false
  end.

Definition jsOr (v w : option jsstring) : option jsstring :=
  if truthy v then v else w.

Notation "v '|||' w" := (jsOr v w) (at level 50, left associativity).

(** A method call on a value that must be a string: a [TypeError] on
    [undefined]. *)
Definition asString (v : option jsstring) : Completion jsstring :=
  match v with
  | Some s => Normal s
  | None => Throw (mkError (js "Cannot read properties of undefined"))
  end.

(* ================================================================= *)
(** ** The platform *)

(** [new URL(s)] exposes more than this; [isValidUrl] reads [protocol]. *)
Record URL := { protocol : jsstring }.

(** What the selectors of [extractBrandName] and [extractDescription]
    answer on a loaded document: [attr('content')] is [undefined] when no
    element matches or the attribute is missing, [text()] is a string. *)
Record Page := {
  meta_og_site_name : option jsstring;      (* $('meta[property=og:site_name]').attr('content') *)
  meta_application_name : option jsstring;  (* $('meta[name=application-name]').attr('content') *)
  title_text : jsstring;                    (* $('title').text() *)
  h1_first_text : jsstring;                 (* $('h1').first().text() *)
  header_logo_text : jsstring;              (* $('header .logo').text() *)
  meta_description : option jsstring;       (* $('meta[name=description]').attr('content') *)
  meta_og_description : option jsstring;    (* $('meta[property=og:description]').attr('content') *)
  meta_twitter_description : option jsstring; (* $('meta[name=twitter:description]').attr('content') *)
  p_first_text : jsstring                   (* $('p').first().text() *)
}.

(** The calls that leave the process.  [PageGoto] and [PageContent] carry
    the number of the navigation attempt (from 0) so that a [World] can
    answer each attempt differently. *)
Inductive Call :=
| ChromiumExecutablePath
| PuppeteerLaunch
| BrowserNewPage
| PageSetViewport
| PageSetDefaultNavigationTimeout
| PageSetDefaultTimeout
| PageGoto (attempt : nat)
| PageContent (attempt : nat)
| Sleep (ms : nat)
| ModelGenerateContent
| BrowserPages
| PagesClose
| BrowserClose.

Record World := {
  production : bool;                  (* process.env.NODE_ENV === 'production' *)
  outcome : Call -> option JsError;   (* [Some e]: the call throws [e] *)
  pageHtml : nat -> jsstring;         (* what page.content() resolves to *)
  modelText : jsstring                (* what response.text() returns *)
}.

(** [browser] is the local variable of [scrapeWebsiteInstance] that its
    [finally] block reads. *)
Record Runtime := {
  trace : list Call;
  browser : bool
}.

Definition start : Runtime := {| trace := []; browser := false |}.

Definition M (A : Type) : Type := Runtime -> Runtime * Completion A.

Definition ret {A} (a : A) : M A := fun rt => (rt, Normal a).

Definition throw {A} (e : JsError) : M A := fun rt => (rt, Throw e).

Definition bind {A B} (m : M A) (k : A -> M B) : M B := fun rt =>
  match m rt with
  | (rt', Normal a) => k a rt'
  | (rt', Throw e) => (rt', Throw e)
  end.

Notation "x <- m ;; k" := (bind m (fun x => k))
  (at level 61, m at next level, right associativity).
Notation "m ;;; k" := (bind m (fun _ => k))
  (at level 61, right associativity).

Definition liftC {A} (c : Completion A) : M A := fun rt => (rt, c).

(** [try { m } catch (e) { h e }] *)
Definition tryCatch {A} (m : M A) (h : JsError -> M A) : M A := fun rt =>
  match m rt with
  | (rt', Normal a) => (rt', Normal a)
  | (rt', Throw e) => h e rt'
  end.

(** [try { m } finally { f }], where [f] has no [return] of its own. *)
Definition tryFinally {A} (m : M A) (f : M unit) : M A := fun rt =>
  match m rt with
  | (rt', c) =>
      match f rt' with
      | (rt'', Normal _) => (rt'', c)
      | (rt'', Throw e) => (rt'', Throw e)
      end
  end.

Definition setBrowser : M unit := fun rt =>
  ({| trace := trace rt; browser := true |}, Normal tt).

Definition getBrowser : M bool := fun rt => (rt, Normal (browser rt)).

(* ================================================================= *)
(** ** The two services *)

Record AIEnhancementService := { enabled : bool }.

Record AIStats := {
  stats_enabled : bool;
  stats_model : jsstring;
  stats_fallbackMode : bool
}.

Record ScrapeOptions := { enhanceDescriptionOption : option bool }.

(** The object [scrapeWebsiteInstance] returns.  A property the object
    literal does not have reads as [None], like one set to [null]. *)
Record ScrapeResult := {
  url : jsstring;
  brandName : option jsstring;
  description : option jsstring;
  rawDescription : option jsstring;
  enhanced : bool;
  aiStats : option AIStats;
  success : bool;
  error : option jsstring;
  errorCategory : option jsstring;
  originalError : option jsstring
}.

Section Services.

(** [String.prototype.toUpperCase] on a one-unit string outside ASCII:
    the Unicode case mapping of the engine (it may answer several units,
    as for U+00DF). *)
Variable unicodeUpper : codeunit -> jsstring.

(** [new URL(s)]: the WHATWG URL parser of the engine, which throws a
    [TypeError] on what it cannot parse as an absolute URL. *)
Variable newURL : jsstring -> Completion URL.

(** [cheerio.load(html)] followed by the selectors of [Page]. *)
Variable cheerioLoad : jsstring -> Page.

Variable world : World.

(** An awaited call to the outside: it is recorded, and it returns or
    throws as the world decides. *)
Definition perform (c : Call) : M unit := fun rt =>
  ({| trace := trace rt ++ [c]; browser := browser rt |},
   match outcome world c with
   | None => Normal tt
   | Some e => Throw e
   end).

(** *** AIEnhancementService *)

(** [c.toUpperCase()] for a single code unit [c]. *)
Definition toUpperCase1 (c : codeunit) : jsstring :=
  if isLower c then [(c - 32)%N]
  else if (c <? 128)%N then [c]
  else unicodeUpper c.

(** [s.charAt(0).toUpperCase() + s.slice(1)] *)
Definition capitalizeFirst (s : jsstring) : jsstring :=
  match s with
  | [] => []
  | c :: rest => toUpperCase1 c ++ rest
  end.

(** [if (s.length > 1000) s = s.substring(0, 997) + '...'] *)
Definition limitLength (s : jsstring) : jsstring :=
  if 1000 <? List.length s then substring0 997 s ++ js "..." else s.

(** [Canonicalize] of an expression with the [i] flag and without [u]. *)
Definition canonicalize (c : codeunit) : codeunit :=
  match toUpperCase1 c with
  | [u] => if (128 <=? c)%N && (u <? 128)%N then c else u
  | _ => c
  end.

Fixpoint startsWithIgnoreCase (p s : jsstring) : bool :=
  match p, s with
  | [], _ => true
  | c :: p', d :: s' =>
      (canonicalize c =? canonicalize d)%N && startsWithIgnoreCase p' s'
  | _ :: _, [] => false
  end.

(** The first replacement of [sanitizeEnhancedDescription], where the
    expression is a quote at the start or a quote at the end, globally:
    the first alternative can only match at index 0 and the second only
    at the last index, if the first has not consumed it. *)
Definition stripOuterQuotes (s : jsstring) : jsstring :=
  let s1 := match s with
            | c :: s' => if isQuote c then s' else s
            | [] => []
            end in
  match rev s1 with
  | c :: r => if isQuote c then rev r else s1
  | [] => s1
  end.

(** [s.replace(/^Enhanced Description:\s*/i, '')] *)
Definition stripLabel (s : jsstring) : jsstring :=
  let label := js "Enhanced Description:" in
  if startsWithIgnoreCase label s then trimStart (skipn (List.length label) s)
  else s.

Definition sanitizeEnhancedDescription (description : jsstring) : jsstring :=
  let description := stripOuterQuotes description in
  let description := stripLabel description in
  let description := stripTags description in
  let description := trim (collapseSpaces description) in
  limitLength description.

Definition fallbackEnhancement (rawDescription : option jsstring) : jsstring :=
  match rawDescription with
  | None => js "No description available"
  | Some raw =>
      if negb (truthy rawDescription) || (List.length (trim raw) =? 0)
      then js "No description available"
      else
        let enhanced := trim raw in
        let enhanced := stripTags enhanced in
        let enhanced := collapseSpaces enhanced in
        let enhanced := fixSentenceGaps enhanced in
        let enhanced := capitalizeFirst enhanced in
        let enhanced :=
          if negb (endsWithTerminal enhanced) then enhanced ++ js "." else enhanced in
        limitLength enhanced
  end.

(** [rawDescription || 'No description available'] *)
Definition orNoDescription (rawDescription : option jsstring) : jsstring :=
  match rawDescription ||| Some (js "No description available") with
  | Some s => s
  | None => []
  end.

(** [!rawDescription || rawDescription.trim().length < 10] *)
Definition tooShort (rawDescription : option jsstring) : bool :=
  match rawDescription with
  | None => true
  | Some raw => negb (truthy rawDescription) || (List.length (trim raw) <? 10)
  end.

(** [brandName] and [url] only enter the prompt and the log lines; the
    prompt leaves with [ModelGenerateContent], which stands for building
    the prompt, [generateContent], [result.response] and
    [response.text()] together. *)
Definition enhanceDescription (ai : AIEnhancementService)
    (rawDescription : option jsstring) : M jsstring :=
  if negb (enabled ai) then ret (fallbackEnhancement rawDescription)
  else if tooShort rawDescription then ret (orNoDescription rawDescription)
  else
    tryCatch
      (perform ModelGenerateContent ;;;
       let enhancedDescription := trim (modelText world) in
       if truthy (Some enhancedDescription) && (0 <? List.length enhancedDescription)
       then ret (sanitizeEnhancedDescription enhancedDescription)
       else ret (fallbackEnhancement rawDescription))
      (fun error => ret (fallbackEnhancement rawDescription)).

Definition getStats (ai : AIEnhancementService) : AIStats :=
  {| stats_enabled := enabled ai;
     stats_model := js "gemini-1.5-flash";
     stats_fallbackMode := negb (enabled ai) |}.

(** *** WebsiteScrapingService *)

Definition isValidUrl (string : jsstring) : Completion bool :=
  ccatch
    (cbind (newURL string) (fun url =>
       Normal (eqb (protocol url) (js "http:") || eqb (protocol url) (js "https:"))))
    (fun _ => Normal false).

Definition extractBrandName (p : Page) : Completion jsstring :=
  let brandName :=
    meta_og_site_name p |||
    meta_application_name p |||
    Some (splitFirst (js " | ") (splitFirst (js " - ") (title_text p))) |||
    Some (h1_first_text p) |||
    Some (header_logo_text p) |||
    Some (js "Unknown Brand") in
  cbind (asString brandName) (fun s => Normal (substring0 255 (trim s))).

Definition extractDescription (p : Page) : Completion jsstring :=
  let description :=
    meta_description p |||
    meta_og_description p |||
    meta_twitter_description p |||
    Some (p_first_text p) |||
    Some (js "No description available") in
  cbind (asString description) (fun s => Normal (substring0 1000 (trim s))).

(** [await new Promise(resolve => setTimeout(resolve, ms))] cannot throw. *)
Definition sleep (ms : nat) : M unit := fun rt =>
  ({| trace := trace rt ++ [Sleep ms]; browser := browser rt |}, Normal tt).

(** The navigation loop,
    [while (retries > 0) { try { goto; content; break } catch (navError)
    { retries--; if (retries === 0) throw navError; warn; sleep } }],
    from the initial value of [retries].  The answer is [content], which
    is still [undefined] when the loop is left by its condition. *)
Fixpoint navigationLoop (retries attempt delay : nat) : M (option jsstring) :=
  match retries with
  | O => ret None
  | S retries' =>
      tryCatch
        (perform (PageGoto attempt) ;;;
         perform (PageContent attempt) ;;;
         ret (Some (pageHtml world attempt)))
        (fun navError =>
           if retries' =? 0 then throw navError
           else sleep delay ;;; navigationLoop retries' (S attempt) delay)
  end.

(** [let retries = 1], one second between attempts. *)
Definition navigate : M (option jsstring) := navigationLoop 1 0 1000.

(** The same loop in the earlier [scrapeWebsite] kept beside the current
    one: [let retries = 2], two seconds between attempts. *)
Definition navigateLegacy : M (option jsstring) := navigationLoop 2 0 2000.

(** [cheerio.load(content)]; cheerio refuses [undefined]. *)
Definition loadContent (content : option jsstring) : Completion Page :=
  match content with
  | Some html => Normal (cheerioLoad html)
  | None => Throw (mkError (js "cheerio.load() expects a string"))
  end.

(** [options.enhanceDescription !== false] *)
Definition wantsEnhancement (options : ScrapeOptions) : bool :=
  match enhanceDescriptionOption options with
  | Some false => false
  | _ => true
  end.

(** The [catch] block: category and user-facing message of an error. *)
Definition classifyError (error : JsError) : jsstring * jsstring :=
  let m := message error in
  if includes m (js "ERR_NAME_NOT_RESOLVED") || includes m (js "ENOTFOUND") then
    (js "DOMAIN_NOT_FOUND", js "Website domain could not be found")
  else if includes m (js "ERR_CONNECTION_REFUSED") || includes m (js "ECONNREFUSED") then
    (js "CONNECTION_REFUSED", js "Website refused connection")
  else if includes m (js "Navigation timeout") || includes m (js "ETIMEDOUT") then
    (js "TIMEOUT", js "Website took too long to respond")
  else if includes m (js "ERR_SSL_PROTOCOL_ERROR") then
    (js "SSL_ERROR", js "SSL certificate error")
  else if includes m (js "ERR_TOO_MANY_REDIRECTS") then
    (js "REDIRECT_ERROR", js "Too many redirects")
  else if includes m (js "Invalid URL format") then
    (js "INVALID_URL", js "Invalid URL format")
  else
    (js "UNKNOWN_ERROR", m).

Definition failureResult (url : jsstring) (error : JsError) : ScrapeResult :=
  let (errorCategory, userFriendlyMessage) := classifyError error in
  {| url := url;
     brandName := None;
     description := None;
     rawDescription := None;
     enhanced := false;
     aiStats := None;
     success := false;
     error := Some userFriendlyMessage;
     errorCategory := Some errorCategory;
     originalError := Some (message error) |}.

(** The [try] block of [scrapeWebsiteInstance]. *)
Definition scrapeBody (ai : AIEnhancementService) (url : jsstring)
    (options : ScrapeOptions) : M ScrapeResult :=
  valid <- liftC (isValidUrl url) ;;
  (if negb valid then throw (mkError (js "Invalid URL format")) else ret tt) ;;;
  (if production world then perform ChromiumExecutablePath else ret tt) ;;;
  perform PuppeteerLaunch ;;;
  setBrowser ;;;
  perform BrowserNewPage ;;;
  perform PageSetViewport ;;;
  perform PageSetDefaultNavigationTimeout ;;;
  perform PageSetDefaultTimeout ;;;
  content <- navigate ;;
  page <- liftC (loadContent content) ;;
  brandName <- liftC (extractBrandName page) ;;
  rawDescription <- liftC (extractDescription page) ;;
  let enhanceDescription' := wantsEnhancement options in
  description <-
    (if enhanceDescription'
     then tryCatch (enhanceDescription ai (Some rawDescription))
                   (fun enhanceError => ret rawDescription)
     else ret rawDescription) ;;
  ret {| url := url;
         brandName := Some brandName;
         description := Some description;
         rawDescription := Some rawDescription;
         enhanced := enhanceDescription' && negb (eqb description rawDescription);
         aiStats := Some (getStats ai);
         success := true;
         error := None;
         errorCategory := None;
         originalError := None |}.

(** The [finally] block ([global.gc], a host hook, left out). *)
Definition closeBrowser : M unit :=
  opened <- getBrowser ;;
  if opened
  then tryCatch
         (perform BrowserPages ;;; perform PagesClose ;;; perform BrowserClose)
         (fun closeError => ret tt)
  else ret tt.

Definition scrapeWebsiteInstance (ai : AIEnhancementService) (url : jsstring)
    (options : ScrapeOptions) : M ScrapeResult :=
  tryFinally
    (tryCatch (scrapeBody ai url options) (fun error => ret (failureResult url error)))
    closeBrowser.

End Services.

(* ================================================================= *)
(** ** The extraction policies as the specification words them *)

(** The first present, non-empty candidate of an ordered list, and the
    literal when there is none. *)
Fixpoint firstNonEmpty (candidates : list (option jsstring)) (literal : jsstring)
  : jsstring :=
  match candidates with
  | [] => literal
  | Some (c :: s) :: _ => c :: s
  | _ :: rest => firstNonEmpty rest literal
  end.

(** The first segment of a title: what precedes the first [" - "], cut
    again at the first [" | "]. *)
Definition titleSegment (title : jsstring) : jsstring :=
  splitFirst (js " | ") (splitFirst (js " - ") title).

(** site-name meta, application-name meta, first segment of the title,
    first h1, logo element, then the literal; trimmed, cut at 255. *)
Definition brandNamePolicy (p : Page) : jsstring :=
  substring0 255 (trim (firstNonEmpty
    [ meta_og_site_name p;
      meta_application_name p;
      Some (titleSegment (title_text p));
      Some (h1_first_text p);
      Some (header_logo_text p) ]
    (js "Unknown Brand"))).

(** description meta, Open-Graph description, Twitter-card description,
    first paragraph, then the literal; trimmed, cut at 1000. *)
Definition descriptionPolicy (p : Page) : jsstring :=
  substring0 1000 (trim (firstNonEmpty
    [ meta_description p;
      meta_og_description p;
      meta_twitter_description p;
      Some (p_first_text p) ]
    (js "No description available"))).

(* ================================================================= *)
(** ** Vocabulary of the properties *)

Definition isGoto (c : Call) : bool :=
  match c with PageGoto _ => true | _ => false end.

Definition isSleep (c : Call) : bool :=
  match c with Sleep _ => true | _ => false end.

(** The runtime after some more calls. *)
Definition logged (rt : Runtime) (calls : list Call) : Runtime :=
  {| trace := trace rt ++ calls; browser := browser rt |}.

(** The raw text is absent, or shorter than 10 units once trimmed. *)
Definition absentOrShort (rawDescription : option jsstring) : Prop :=
  match rawDescription with
  | None => True
  | Some raw => List.length (trim raw) < 10
  end.

(** The calls of [scrapeWebsiteInstance] up to and including the page
    load: when none of them throws, extraction succeeds. *)
Definition extractionCalls (w : World) : list Call :=
  (if production w then [ChromiumExecutablePath] else []) ++
  [PuppeteerLaunch; BrowserNewPage; PageSetViewport;
   PageSetDefaultNavigationTimeout; PageSetDefaultTimeout;
   PageGoto 0; PageContent 0].

(** The remote call throws, or the model answers nothing but white space. *)
Definition remoteFails (w : World) : Prop :=
  outcome w ModelGenerateContent <> None \/ trim (modelText w) = [].

(** The shape of a result: no content and a populated error on failure,
    no error on success. *)
Definition wellShaped (r : ScrapeResult) : Prop :=
  (success r = false ->
   brandName r = None /\ description r = None /\ rawDescription r = None /\
   error r <> None /\ errorCategory r <> None) /\
  (success r = true ->
   error r = None /\ errorCategory r = None).

(** Some ['<'] of [s] has a ['>'] after it: the tag expression matches
    somewhere in [s]. *)
Fixpoint containsTag (s : jsstring) : bool :=
  match s with
  | [] => false
  | c :: s' => (c =? LT_SIGN)%N && existsb (N.eqb GT_SIGN) s' || containsTag s'
  end.

(** Every white space of [s] is one U+0020 followed by a unit that is not
    white space. *)
Fixpoint spacesSingle (s : jsstring) : bool :=
  match s with
  | [] => true
  | c :: s' =>
      (if isWhiteSpace c
       then (c =? SPACE)%N &&
            match s' with
            | d :: _ => negb (isWhiteSpace d)
            | [] => false
            end
       else true) && spacesSingle s'
  end.

(** Normalized white space: none at either end, single spaces inside. *)
Definition spacesNormalized (s : jsstring) : bool :=
  match s with
  | c :: _ => negb (isWhiteSpace c)
  | [] => true
  end && spacesSingle s.

(** A unit that no step of the cleanup looks for. *)
Definition inert (c : codeunit) : bool :=
  negb (isWhiteSpace c) && negb (isTerminal c) &&
  negb (c =? LT_SIGN)%N && negb (c =? GT_SIGN)%N.

(** What the cleanup relies on from the case mapping of the engine
    outside ASCII: the upper case of a unit that is not white space is
    not empty, holds no white space, no terminal punctuation and no angle
    bracket, and starts with a unit that is its own upper case. *)
Definition upperCaseSane (upper : codeunit -> jsstring) : Prop :=
  forall c, (128 <= c)%N -> isWhiteSpace c = false ->
    exists u us,
      upper c = u :: us /\
      toUpperCase1 upper u = [u] /\
      forallb inert (u :: us) = true.

(** A matcher that never matches the empty string. *)
Definition consuming (m : matcher) : Prop :=
  forall s r rest, m s = Some (r, rest) -> List.length rest < List.length s.

(** After the whole run of white space at the head of [s] comes a
    lower-case letter. *)
Definition lowerNext (s : jsstring) : bool :=
  match trimStart s with
  | l :: _ => isLower l
  | [] => false
  end.

(** [s] starts with one U+0020 and a lower-case letter. *)
Definition spacedLower (s : jsstring) : bool :=
  match s with
  | sp :: l :: _ => (sp =? SPACE)%N && isLower l
  | _ => false
  end.

(** Wherever the sentence-gap expression matches in [s], the match
    already reads as its replacement. *)
Fixpoint gapsFixed (s : jsstring) : bool :=
  match s with
  | [] => true
  | c :: s' =>
      (negb (isTerminal c) || negb (lowerNext s') || spacedLower s') && gapsFixed s'
  end.

(** What the cleanup produces, and leaves alone: normalized white space,
    no tag, gaps in place, terminal punctuation at the end, a first unit
    that is its own upper case, at most 1000 units. *)
Definition cleaned (upper : codeunit -> jsstring) (s : jsstring) : Prop :=
  spacesNormalized s = true /\ containsTag s = false /\ gapsFixed s = true /\
  endsWithTerminal s = true /\ capitalizeFirst upper s = s /\
  List.length s <= 1000.

(* ================================================================= *)
(** ** A small platform to run the model on *)

(** U+00DF to SS, every other unit to itself. *)
Definition sampleUpper (c : codeunit) : jsstring :=
  if (c =? 223)%N then [83%N; 83%N] else [c].

(** A stand-in for [new URL]: the scheme of a string that starts with
    one of three well-known schemes, a [TypeError] otherwise. *)
Definition sampleURL (s : jsstring) : Completion URL :=
  if startsWith (js "http://") s then Normal {| protocol := js "http:" |}
  else if startsWith (js "https://") s then Normal {| protocol := js "https:" |}
  else if startsWith (js "ftp://") s then Normal {| protocol := js "ftp:" |}
  else Throw (mkError (js "Invalid URL")).

Definition acmePage : Page :=
  {| meta_og_site_name := Some (js "Acme");
     meta_application_name := None;
     title_text := js "Acme - Home";
     h1_first_text := js "Welcome";
     header_logo_text := [];
     meta_description := Some (js "A great shop");
     meta_og_description := None;
     meta_twitter_description := None;
     p_first_text := [] |}.

Definition sampleCheerio (html : jsstring) : Page := acmePage.

(** Every call succeeds, except the listed ones, which throw [e]. *)
Definition failing (calls : list Call) (e : JsError) (c : Call) : option JsError :=
  if existsb (fun d =>
        match c, d with
        | PageGoto n, PageGoto m => n =? m
        | PageContent n, PageContent m => n =? m
        | ModelGenerateContent, ModelGenerateContent => true
        | PuppeteerLaunch, PuppeteerLaunch => true
        | _, _ => false
        end) calls
  then Some e else None.

Definition sampleWorld (calls : list Call) (e : JsError) (reply : jsstring) : World :=
  {| production := false;
     outcome := failing calls e;
     pageHtml := fun _ => js "<html></html>";
     modelText := reply |}.

Definition connectionReset : JsError := mkError (js "net::ERR_CONNECTION_RESET").

Definition acmeUrl : jsstring := js "https://acme.test".

Definition defaults : ScrapeOptions := {| enhanceDescriptionOption := None |}.

(** The first page load is reset, every other call succeeds. *)
Definition flakyWorld : World := sampleWorld [PageGoto 0] connectionReset (js "x").

(** The remote model is out of quota, every other call succeeds. *)
Definition quotaWorld : World :=
  sampleWorld [ModelGenerateContent] (mkError (js "429 quota exceeded")) (js "x").

(** Nothing fails. *)
Definition calmWorld : World := sampleWorld [] connectionReset (js "x").

(* ================================================================= *)
(** ** Callers and further vocabulary *)

(** The three calls of the [finally] block. *)
Definition isClosing (c : Call) : bool :=
  match c with
  | BrowserPages | PagesClose | BrowserClose => true
  | _ => false
  end.

Definition isRemoteCall (c : Call) : bool :=
  match c with
  | ModelGenerateContent => true
  | _ => false
  end.

(** What the [finally] block gets to call on an open browser: it stops at
    the first call that throws. *)
Definition teardown (w : World) : list Call :=
  BrowserPages ::
  match outcome w BrowserPages with
  | Some _ => []
  | None =>
      PagesClose ::
      match outcome w PagesClose with
      | Some _ => []
      | None => [BrowserClose]
      end
  end.

(** A call that is no delay and no page load or page read past the first
    attempt. *)
Definition firstAttemptOnly (c : Call) : bool :=
  match c with
  | Sleep _ => false
  | PageGoto (S _) => false
  | PageContent (S _) => false
  | _ => true
  end.

(** A computation whose calls all satisfy [P] and that never unsets
    [browser]. *)
Definition emitsOnly {A} (P : Call -> bool) (m : M A) : Prop :=
  forall rt rt' c, m rt = (rt', c) ->
    (browser rt = true -> browser rt' = true) /\
    exists l, trace rt' = trace rt ++ l /\ forallb P l = true.

(** The units of [s] are all white space. *)
Definition blank (s : jsstring) : bool := forallb isWhiteSpace s.

(** No white space at the start of [s], none at its end. *)
Definition noOuterSpace (s : jsstring) : Prop :=
  match s with
  | c :: _ => isWhiteSpace c = false
  | [] => True
  end /\
  match rev s with
  | c :: _ => isWhiteSpace c = false
  | [] => True
  end.


(** The row that POST /analyze inserts into [website_analysis]. *)
Record AnalysisRow := {
  row_url : jsstring;
  row_brand_name : option jsstring;
  row_description : option jsstring;
  row_raw_description : option jsstring;
  row_enhanced : bool
}.

(** What an awaited query resolves to: the [{ data, error }] pair, with
    [error] set or with the rows of [data]. *)
Inductive DbReply (R : Type) : Type :=
| DbData (data : list R)
| DbError (error : JsError).
Arguments DbData {R} data.
Arguments DbError {R} error.

(** What the handler of POST /analyze answers: a status with its body, or
    an error handed to [next] by [asyncHandler]. *)
Inductive AnalyzeResponse (R : Type) : Type :=
| Unprocessable (details errorCategory : option jsstring)
| StoreFailed
| Created (record : option R) (stats : option AIStats) (isEnhanced : bool)
| Forwarded (err : JsError).
Arguments Unprocessable {R} details errorCategory.
Arguments StoreFailed {R}.
Arguments Created {R} record stats isEnhanced.
Arguments Forwarded {R} err.

Definition statusOf {R} (response : AnalyzeResponse R) : option nat :=
  match response with
  | Unprocessable _ _ => Some 422
  | StoreFailed => Some 500
  | Created _ _ _ => Some 201
  | Forwarded _ => None
  end.

Record AnalyzeRun (R : Type) := {
  run_calls : list Call;            (* what the scrape called *)
  run_inserts : list AnalysisRow;   (* the rows handed to insert *)
  run_response : AnalyzeResponse R
}.
Arguments run_calls {R} _.
Arguments run_inserts {R} _.
Arguments run_response {R} _.

(** [scrapingResult.url], for where a local [url] hides the field. *)
Definition resultUrl (r : ScrapeResult) : jsstring := url r.

Section Callers.

Variable unicodeUpper : codeunit -> jsstring.
Variable newURL : jsstring -> Completion URL.
Variable cheerioLoad : jsstring -> Page.
Variable world : World.

(** The launch is reached and succeeds: the URL is valid, and neither
    [chromium.executablePath()] (in production) nor [puppeteer.launch]
    throws. *)
Definition launches (url : jsstring) : bool :=
  match isValidUrl newURL url with
  | Normal true =>
      (if production world
       then match outcome world ChromiumExecutablePath with
            | None => true
            | Some _ => false
            end
       else true) &&
      match outcome world PuppeteerLaunch with
      | None => true
      | Some _ => false
      end
  | _ => false
  end.

(** [enhanceDescription] reaches [generateContent]: the engine is enabled
    and the trimmed text has at least 10 units. *)
Definition remoteCallDue (ai : AIEnhancementService)
    (rawDescription : option jsstring) : bool :=
  enabled ai &&
  match rawDescription with
  | Some raw => 10 <=? List.length (trim raw)
  | None => false
  end.

(** The statements of the [try] block after
    [browser = await puppeteer.launch(launchOptions)]. *)
Definition scrapeAfterLaunch (ai : AIEnhancementService) (url : jsstring)
    (options : ScrapeOptions) : M ScrapeResult :=
  perform world BrowserNewPage ;;;
  perform world PageSetViewport ;;;
  perform world PageSetDefaultNavigationTimeout ;;;
  perform world PageSetDefaultTimeout ;;;
  content <- navigate world ;;
  page <- liftC (loadContent cheerioLoad content) ;;
  brandName <- liftC (extractBrandName page) ;;
  rawDescription <- liftC (extractDescription page) ;;
  let enhanceDescription' := wantsEnhancement options in
  description <-
    (if enhanceDescription'
     then tryCatch (enhanceDescription unicodeUpper world ai (Some rawDescription))
                   (fun enhanceError => ret rawDescription)
     else ret rawDescription) ;;
  ret {| url := url;
         brandName := Some brandName;
         description := Some description;
         rawDescription := Some rawDescription;
         enhanced := enhanceDescription' && negb (eqb description rawDescription);
         aiStats := Some (getStats ai);
         success := true;
         error := None;
         errorCategory := None;
         originalError := None |}.

(** [static async scrapeWebsite(url, options)]: a fresh service, whose
    engine is enabled when [GEMINI_API_KEY] is set, and a fresh
    [let browser = null]. *)
Definition scrapeWebsite (apiKey : option jsstring) (url : jsstring)
    (options : ScrapeOptions) : M ScrapeResult := fun rt =>
  scrapeWebsiteInstance unicodeUpper newURL cheerioLoad world
    {| enabled := truthy apiKey |} url options
    {| trace := trace rt; browser := false |}.

(** The rows the database answers, and its answer to
    [insert(row).select()], which may also reject. *)
Variable Stored : Type.
Variable insertRow : AnalysisRow -> Completion (DbReply Stored).

(** The handler of POST /analyze, after the rate limit and the
    validation: [enhanceDescription] of the body defaults to [true]. *)
Definition analyzeHandler (apiKey : option jsstring) (url : jsstring)
    (enhanceDescription : option bool) : AnalyzeRun Stored :=
  let enhanceDescription :=
    match enhanceDescription with
    | Some b => b
    | None => true
    end in
  match scrapeWebsite apiKey url
          {| enhanceDescriptionOption := Some enhanceDescription |} start with
  | (rt, Throw err) =>
      {| run_calls := trace rt; run_inserts := []; run_response := Forwarded err |}
  | (rt, Normal scrapingResult) =>
      if negb (success scrapingResult) then
        {| run_calls := trace rt;
           run_inserts := [];
           run_response := Unprocessable (error scrapingResult)
                                         (errorCategory scrapingResult) |}
      else
        let row := {| row_url := resultUrl scrapingResult;
                      row_brand_name := brandName scrapingResult;
                      row_description := description scrapingResult;
                      row_raw_description := rawDescription scrapingResult;
                      row_enhanced := enhanced scrapingResult |} in
        {| run_calls := trace rt;
           run_inserts := [row];
           run_response :=
             match insertRow row with
             | Throw err => Forwarded err
             | Normal (DbError _) => StoreFailed
             | Normal (DbData data) =>
                 Created (hd_error data) (aiStats scrapingResult)
                         (enhanced scrapingResult)
             end |}
  end.

End Callers.

(** The first page load fails with a name-resolution error that also
    mentions a timeout. *)
Definition dnsError : JsError :=
  mkError (js "net::ERR_NAME_NOT_RESOLVED at https://acme.test (Navigation timeout)").

Definition dnsWorld : World := sampleWorld [PageGoto 0] dnsError (js "x").

(** The model answers a quoted text with a tag in it. *)
Definition replyWorld : World :=
  sampleWorld [] connectionReset (js " 'A <b>truly</b> great shop.' ").

Definition noEnhancement : ScrapeOptions :=
  {| enhanceDescriptionOption := Some false |}.

(** A page whose og:site_name and description meta hold two spaces. *)
Definition blankPage : Page :=
  {| meta_og_site_name := Some (js "  ");
     meta_application_name := Some (js "Acme App");
     title_text := js "Acme - Home";
     h1_first_text := js "Welcome";
     header_logo_text := [];
     meta_description := Some (js "  ");
     meta_og_description := Some (js "A great shop");
     meta_twitter_description := None;
     p_first_text := js "Hello" |}.

(** The row of a scrape of the sample page without an API key. *)
Definition acmeRow : AnalysisRow :=
  {| row_url := acmeUrl;
     row_brand_name := Some (js "Acme");
     row_description := Some (js "A great shop.");
     row_raw_description := Some (js "A great shop");
     row_enhanced := true |}.

(** A database that stores what it is given. *)
Definition echoInsert (row : AnalysisRow) : Completion (DbReply AnalysisRow) :=
  Normal (DbData [row]).

(** The fields of a stored record that POST /:id/enhance reads. *)
Record StoredRecord := {
  rec_url : jsstring;
  rec_brand_name : option jsstring;
  rec_description : option jsstring;
  rec_raw_description : option jsstring;
  rec_enhanced : bool
}.

(** What [.eq('id', id).single()] resolves to: the record, or an error
    with its [code]. *)
Inductive FetchReply : Type :=
| Fetched (existingData : StoredRecord)
| FetchError (code : option jsstring).

(** The object POST /:id/enhance hands to [update], but for its
    [updated_at] stamp. *)
Record EnhanceUpdate := {
  upd_description : jsstring;
  upd_raw_description : option jsstring;
  upd_enhanced : bool
}.

Inductive EnhanceResponse (R : Type) : Type :=
| RecordNotFound                          (* 404 *)
| FetchFailure                            (* 500, failed to fetch *)
| AlreadyEnhanced (data : StoredRecord)   (* 400 *)
| TooShortToEnhance                       (* 400 *)
| UpdateFailure                           (* 500, failed to update *)
| EnhancedOk (record : option R) (stats : AIStats)   (* 200 *)
| EnhancementFailed (details : jsstring)  (* 500, AI enhancement failed *)
| EnhanceForwarded (err : JsError).       (* asyncHandler: next(err) *)
Arguments RecordNotFound {R}.
Arguments FetchFailure {R}.
Arguments AlreadyEnhanced {R} data.
Arguments TooShortToEnhance {R}.
Arguments UpdateFailure {R}.
Arguments EnhancedOk {R} record stats.
Arguments EnhancementFailed {R} details.
Arguments EnhanceForwarded {R} err.

Record EnhanceRun (R : Type) := {
  enh_calls : list Call;              (* what the engine called *)
  enh_updates : list EnhanceUpdate;   (* the objects handed to update *)
  enh_response : EnhanceResponse R
}.
Arguments enh_calls {R} _.
Arguments enh_updates {R} _.
Arguments enh_response {R} _.

Section EnhanceRoute.

Variable unicodeUpper : codeunit -> jsstring.
Variable world : World.
Variable Stored : Type.

(** The answer of the database to the update, which may also reject. *)
Variable updateRecord : EnhanceUpdate -> Completion (DbReply Stored).

(** The handler of POST /:id/enhance, after the validation of the id;
    [fetched] is what the awaited query for the record gave.  The [try]
    block builds a fresh engine, enhances and updates; its [catch]
    answers 500 with the message of whatever was thrown. *)
Definition enhanceHandler (apiKey : option jsstring)
    (fetched : Completion FetchReply) : EnhanceRun Stored :=
  let answer r := {| enh_calls := []; enh_updates := []; enh_response := r |} in
  match fetched with
  | Throw err => answer (EnhanceForwarded err)
  | Normal (FetchError code) =>
      match code with
      | Some c => if eqb c (js "PGRST116") then answer RecordNotFound
                  else answer FetchFailure
      | None => answer FetchFailure
      end
  | Normal (Fetched existingData) =>
      if rec_enhanced existingData then answer (AlreadyEnhanced existingData)
      else
        let descriptionToEnhance :=
          rec_raw_description existingData ||| rec_description existingData in
        if tooShort descriptionToEnhance then answer TooShortToEnhance
        else
          let aiEnhancement := {| enabled := truthy apiKey |} in
          match enhanceDescription unicodeUpper world aiEnhancement
                  descriptionToEnhance start with
          | (rt, Throw enhanceError) =>
              {| enh_calls := trace rt;
                 enh_updates := [];
                 enh_response := EnhancementFailed (message enhanceError) |}
          | (rt, Normal enhancedDescription) =>
              let update :=
                {| upd_description := enhancedDescription;
                   upd_raw_description :=
                     rec_raw_description existingData ||| rec_description existingData;
                   upd_enhanced := true |} in
              {| enh_calls := trace rt;
                 enh_updates := [update];
                 enh_response :=
                   match updateRecord update with
                   | Throw enhanceError => EnhancementFailed (message enhanceError)
                   | Normal (DbError _) => UpdateFailure
                   | Normal (DbData data) =>
                       EnhancedOk (hd_error data) (getStats aiEnhancement)
                   end |}
          end
  end.

End EnhanceRoute.

(** A stored record that was scraped without enhancement. *)
Definition plainRecord : StoredRecord :=
  {| rec_url := acmeUrl;
     rec_brand_name := Some (js "Acme");
     rec_description := Some (js "a great shop for all");
     rec_raw_description := None;
     rec_enhanced := false |}.

(** A database whose update rejects. *)
Definition brokenUpdate (u : EnhanceUpdate) : Completion (DbReply StoredRecord) :=
  Throw (mkError (js "fetch failed")).

(* ================================================================= *)
(** ** Strings: basic facts *)

Lemma eqb_eq (s t : jsstring) : eqb s t = true <-> s = t.
Proof.
  revert t; induction s as [|c s IH]; intros [|d t]; simpl; split;
    try discriminate; try reflexivity.
  - intros H. apply andb_true_iff in H as [Hc Hs].
    apply N.eqb_eq in Hc. apply IH in Hs. now subst.
  - intros H. injection H as -> ->. rewrite N.eqb_refl. now apply IH.
Qed.

Lemma eqb_neq (s t : jsstring) : eqb s t = false <-> s <> t.
Proof.
  split.
  - intros H E. apply eqb_eq in E. congruence.
  - intros H. destruct (eqb s t) eqn:E; [apply eqb_eq in E; contradiction | reflexivity].
Qed.

Lemma substring0_length (n : nat) (s : jsstring) : List.length (substring0 n s) <= n.
Proof. unfold substring0. apply firstn_le_length. Qed.

(** Facts about the character classes, by arithmetic on the unit. *)
Ltac classes :=
  unfold inert, isWhiteSpace, isLower, isTerminal, isQuote,
    DOT, BANG, QMARK, LT_SIGN, GT_SIGN, SPACE, DQUOTE, SQUOTE in *;
  repeat first
    [ progress
        (rewrite ?negb_true_iff, ?negb_false_iff, ?andb_true_iff, ?orb_true_iff,
           ?andb_false_iff, ?orb_false_iff, ?N.eqb_eq, ?N.eqb_neq, ?N.leb_le,
           ?N.leb_gt, ?N.ltb_lt, ?N.ltb_ge in *)
    | match goal with |- _ /\ _ => split end ];
  try lia.

Section Properties.

Variable unicodeUpper : codeunit -> jsstring.
Variable newURL : jsstring -> Completion URL.
Variable cheerioLoad : jsstring -> Page.
Variable world : World.

#[local] Arguments N.eqb : simpl never.
#[local] Arguments N.leb : simpl never.
#[local] Arguments N.ltb : simpl never.

Lemma limitLength_le (s : jsstring) :
  List.length (limitLength s) <= 1000.
Proof.
  unfold limitLength. destruct (1000 <? List.length s) eqn:E.
  - rewrite length_app. pose proof (substring0_length 997 s).
    change (List.length (js "...")) with 3. lia.
  - apply Nat.ltb_ge in E. exact E.
Qed.

(** *** isValidUrl *)

Lemma isValidUrl_total (s : jsstring) :
  isValidUrl newURL s =
  Normal match newURL s with
         | Normal u => eqb (protocol u) (js "http:") || eqb (protocol u) (js "https:")
         | Throw _ => false
         end.
Proof. unfold isValidUrl. destruct (newURL s); reflexivity. Qed.

(** C10: [isValidUrl] answers a boolean on every string and never throws;
    the boolean is [true] exactly when [new URL] accepts the string and
    the protocol of the parsed URL is [http:] or [https:]. *)
Theorem C10_isValidUrl_total (s : jsstring) :
  exists b : bool,
    isValidUrl newURL s = Normal b /\
    (b = true <->
     exists u, newURL s = Normal u /\
               (protocol u = js "http:" \/ protocol u = js "https:")).
Proof.
  rewrite isValidUrl_total. eexists; split; [reflexivity|].
  destruct (newURL s) as [u|e]; split.
  - intros H. exists u. split; [reflexivity|].
    apply orb_true_iff in H as [H|H]; apply eqb_eq in H; auto.
  - intros (u' & Hu & H). injection Hu as <-.
    apply orb_true_iff. destruct H as [H|H]; [left|right]; now apply eqb_eq.
  - discriminate.
  - intros (u & Hu & _). discriminate.
Qed.

(** *** Extraction policies *)

Lemma asString_Some (s : jsstring) : asString (Some s) = Normal s.
Proof. reflexivity. Qed.

Lemma extractBrandName_policy (p : Page) :
  extractBrandName p = Normal (brandNamePolicy p).
Proof.
  unfold extractBrandName, brandNamePolicy, titleSegment, jsOr.
  destruct (meta_og_site_name p) as [[|? ?]|];
  destruct (meta_application_name p) as [[|? ?]|];
  destruct (splitFirst (js " | ") (splitFirst (js " - ") (title_text p))) as [|? ?];
  destruct (h1_first_text p) as [|? ?];
  destruct (header_logo_text p) as [|? ?]; reflexivity.
Qed.

Lemma extractDescription_policy (p : Page) :
  extractDescription p = Normal (descriptionPolicy p).
Proof.
  unfold extractDescription, descriptionPolicy, jsOr.
  destruct (meta_description p) as [[|? ?]|];
  destruct (meta_og_description p) as [[|? ?]|];
  destruct (meta_twitter_description p) as [[|? ?]|];
  destruct (p_first_text p) as [|? ?]; reflexivity.
Qed.

Lemma startsWith_app (p a b : jsstring) :
  startsWith p a = true -> startsWith p (a ++ b) = true.
Proof.
  revert a. induction p as [|c p IH]; intros a; [reflexivity|].
  destruct a as [|d a]; simpl; [discriminate|].
  intros H. apply andb_true_iff in H as [-> H]. now apply IH.
Qed.

Lemma splitFirst_prefix (sep s : jsstring) :
  exists rest,
    s = splitFirst sep s ++ rest /\ (rest = [] \/ startsWith sep rest = true).
Proof.
  induction s as [|c s (rest & Hs & Hrest)].
  - exists []. split; [reflexivity | now left].
  - cbn [splitFirst]. destruct (startsWith sep (c :: s)) eqn:E.
    + exists (c :: s). split; [reflexivity | now right].
    + exists rest. split; [|exact Hrest]. cbn [app]. now rewrite <- Hs.
Qed.

Lemma includes_nil (p : jsstring) : p <> [] -> includes [] p = false.
Proof. destruct p; [contradiction | reflexivity]. Qed.

Lemma includes_app_false (a b p : jsstring) :
  includes (a ++ b) p = false -> includes a p = false.
Proof.
  induction a as [|c a IH]; intros H.
  - destruct p as [|d p]; [|reflexivity].
    destruct b; discriminate.
  - cbn [app includes] in *. apply orb_false_iff in H as [H1 H2].
    rewrite (IH H2), orb_false_r.
    destruct (startsWith p (c :: a)) eqn:E; [|reflexivity].
    apply (startsWith_app _ _ b) in E. cbn [app] in E. congruence.
Qed.

Lemma includes_splitFirst (sep s : jsstring) :
  sep <> [] -> includes (splitFirst sep s) sep = false.
Proof.
  intros Hsep. induction s as [|c s IH]; [now apply includes_nil|].
  cbn [splitFirst]. destruct (startsWith sep (c :: s)) eqn:E;
    [now apply includes_nil|].
  cbn [includes]. rewrite IH, orb_false_r.
  destruct (startsWith sep (c :: splitFirst sep s)) eqn:E2; [|reflexivity].
  destruct (splitFirst_prefix sep s) as (rest & Hs & _).
  apply (startsWith_app _ _ rest) in E2. cbn [app] in E2.
  rewrite <- Hs in E2. congruence.
Qed.

(** The title segment is a first segment for both separators: a prefix
    of the title that holds neither of them and that a separator follows,
    unless it is the whole title. *)
Lemma titleSegment_first_segment (title : jsstring) :
  exists rest,
    title = titleSegment title ++ rest /\
    (rest = [] \/ startsWith (js " - ") rest = true
               \/ startsWith (js " | ") rest = true) /\
    includes (titleSegment title) (js " - ") = false /\
    includes (titleSegment title) (js " | ") = false.
Proof.
  unfold titleSegment.
  destruct (splitFirst_prefix (js " - ") title) as (r1 & H1 & Hr1).
  destruct (splitFirst_prefix (js " | ") (splitFirst (js " - ") title))
    as (r2 & H2 & Hr2).
  exists (r2 ++ r1). repeat split.
  - rewrite app_assoc, <- H2. exact H1.
  - destruct Hr2 as [-> | Hr2].
    + destruct Hr1 as [-> | Hr1]; [now left | right; now left].
    + right; right. now apply startsWith_app.
  - apply (includes_app_false _ r2). rewrite <- H2.
    apply includes_splitFirst. discriminate.
  - apply includes_splitFirst. discriminate.
Qed.

(** C5: [extractBrandName] never throws and answers what the ordered
    policy answers: the first non-empty of og:site_name, application-name,
    first title segment, first h1, logo text, else the literal
    Unknown Brand, trimmed and cut at 255 units.  The title segment is a
    prefix of the title that holds neither separator and ends where one
    starts.  A page whose og:site_name is Acme and whose title is
    Acme - Home gives Acme. *)
Theorem C5_brand_name_priority :
  (forall p : Page, extractBrandName p = Normal (brandNamePolicy p)) /\
  (forall title : jsstring, exists rest,
      title = titleSegment title ++ rest /\
      (rest = [] \/ startsWith (js " - ") rest = true
                 \/ startsWith (js " | ") rest = true) /\
      includes (titleSegment title) (js " - ") = false /\
      includes (titleSegment title) (js " | ") = false) /\
  (forall p : Page,
      meta_og_site_name p = Some (js "Acme") ->
      title_text p = js "Acme - Home" ->
      extractBrandName p = Normal (js "Acme")).
Proof.
  split; [exact extractBrandName_policy|].
  split; [exact titleSegment_first_segment|].
  intros p Hog Ht. rewrite extractBrandName_policy.
  unfold brandNamePolicy. rewrite Hog. reflexivity.
Qed.

(** C6: [extractDescription] never throws and answers what the ordered
    policy answers: the first non-empty of the description meta, the
    og:description meta, the twitter:description meta and the first
    paragraph, else the literal No description available, trimmed and cut
    at 1000 units.  A page whose only source is a description meta of
    A great shop gives exactly that text. *)
Theorem C6_description_priority :
  (forall p : Page, extractDescription p = Normal (descriptionPolicy p)) /\
  (forall p : Page,
      meta_description p = Some (js "A great shop") ->
      meta_og_description p = None ->
      meta_twitter_description p = None ->
      p_first_text p = [] ->
      extractDescription p = Normal (js "A great shop")).
Proof.
  split; [exact extractDescription_policy|].
  intros p Hd _ _ _. rewrite extractDescription_policy.
  unfold descriptionPolicy. rewrite Hd. reflexivity.
Qed.

(** *** Length bounds *)

Lemma sanitizeEnhancedDescription_le (d : jsstring) :
  List.length (sanitizeEnhancedDescription unicodeUpper d) <= 1000.
Proof. unfold sanitizeEnhancedDescription. apply limitLength_le. Qed.

Lemma fallbackEnhancement_le (raw : option jsstring) :
  List.length (fallbackEnhancement unicodeUpper raw) <= 1000.
Proof.
  unfold fallbackEnhancement. destruct raw as [raw|].
  - destruct (negb (truthy (Some raw)) || (List.length (trim raw) =? 0)).
    + vm_compute. lia.
    + apply limitLength_le.
  - vm_compute. lia.
Qed.

(** C7: whatever the page holds, the brand name has at most 255 units and
    the description at most 1000; the sanitized model response and the
    local cleanup have at most 1000 units on every input. *)
Theorem C7_length_bounds :
  (forall p : Page, exists b,
      extractBrandName p = Normal b /\ List.length b <= 255) /\
  (forall p : Page, exists d,
      extractDescription p = Normal d /\ List.length d <= 1000) /\
  (forall d : jsstring,
      List.length (sanitizeEnhancedDescription unicodeUpper d) <= 1000) /\
  (forall raw : option jsstring,
      List.length (fallbackEnhancement unicodeUpper raw) <= 1000).
Proof.
  repeat split.
  - intros p. eexists. split; [apply extractBrandName_policy|].
    apply substring0_length.
  - intros p. eexists. split; [apply extractDescription_policy|].
    apply substring0_length.
  - apply sanitizeEnhancedDescription_le.
  - apply fallbackEnhancement_le.
Qed.

(** *** Calls and their traces *)

Lemma perform_ok (c : Call) (rt : Runtime) :
  outcome world c = None ->
  perform world c rt =
  ({| trace := trace rt ++ [c]; browser := browser rt |}, Normal tt).
Proof. intros H. unfold perform. now rewrite H. Qed.

Lemma perform_throws (c : Call) (e : JsError) (rt : Runtime) :
  outcome world c = Some e ->
  perform world c rt =
  ({| trace := trace rt ++ [c]; browser := browser rt |}, Throw e).
Proof. intros H. unfold perform. now rewrite H. Qed.

Lemma perform_cases (c : Call) (rt : Runtime) :
  exists r, perform world c rt =
            ({| trace := trace rt ++ [c]; browser := browser rt |}, r).
Proof. unfold perform. eexists. reflexivity. Qed.

Lemma closeBrowser_never_throws (rt : Runtime) :
  exists rt', closeBrowser world rt = (rt', Normal tt).
Proof.
  unfold closeBrowser, bind, getBrowser, tryCatch, ret.
  destruct (browser rt); [|eexists; reflexivity].
  unfold perform.
  destruct (outcome world BrowserPages); [eexists; reflexivity|].
  destruct (outcome world PagesClose); [eexists; reflexivity|].
  destruct (outcome world BrowserClose); eexists; reflexivity.
Qed.

Lemma closeBrowser_unopened (rt : Runtime) :
  browser rt = false -> closeBrowser world rt = (rt, Normal tt).
Proof.
  intros H. unfold closeBrowser, bind, getBrowser, ret. now rewrite H.
Qed.

(** *** The URL check *)

Lemma classifyError_invalid_url :
  classifyError (mkError (js "Invalid URL format")) =
  (js "INVALID_URL", js "Invalid URL format").
Proof. vm_compute. reflexivity. Qed.

Lemma isValidUrl_rejects (url : jsstring) :
  (forall u, newURL url = Normal u ->
             protocol u <> js "http:" /\ protocol u <> js "https:") ->
  isValidUrl newURL url = Normal false.
Proof.
  intros H. rewrite isValidUrl_total. destruct (newURL url) as [u|e]; [|reflexivity].
  destruct (H u eq_refl) as [H1 H2].
  apply eqb_neq in H1, H2. now rewrite H1, H2.
Qed.

(** C4: a string that [new URL] rejects, or whose protocol is neither
    [http:] nor [https:], gives a result with [success] false and
    category INVALID_URL; the run makes no call at all (no launch, no
    navigation) and leaves [browser] unset. *)
Theorem C4_invalid_url_rejected
    (ai : AIEnhancementService) (url : jsstring) (options : ScrapeOptions) :
  (forall u, newURL url = Normal u ->
             protocol u <> js "http:" /\ protocol u <> js "https:") ->
  exists rt r,
    scrapeWebsiteInstance unicodeUpper newURL cheerioLoad world ai url options start
      = (rt, Normal r) /\
    success r = false /\
    errorCategory r = Some (js "INVALID_URL") /\
    trace rt = [] /\ browser rt = false.
Proof.
  intros H. apply isValidUrl_rejects in H.
  unfold scrapeWebsiteInstance, tryFinally, tryCatch, scrapeBody, bind, liftC.
  rewrite H. cbn [negb throw ret].
  rewrite closeBrowser_unopened by reflexivity.
  unfold failureResult. rewrite classifyError_invalid_url.
  do 2 eexists. repeat split.
Qed.

(** *** Navigation *)

(** With [retries] starting at 1 the first failure leaves the loop: the
    decrement makes [retries === 0] true and the error is rethrown
    before the warning and the delay. *)
Lemma navigate_first_failure_is_final (e : JsError) (rt : Runtime) :
  outcome world (PageGoto 0) = Some e ->
  navigate world rt = (logged rt [PageGoto 0], Throw e).
Proof.
  intros H. unfold navigate, navigationLoop, tryCatch, bind.
  rewrite (perform_throws _ _ _ H). reflexivity.
Qed.

(** With [retries] starting at 2, as in the earlier version of the
    service, a failed first attempt is followed by the delay and by
    exactly one more attempt. *)
Lemma navigateLegacy_retries_once (e : JsError) (rt : Runtime) :
  outcome world (PageGoto 0) = Some e ->
  outcome world (PageGoto 1) = None ->
  outcome world (PageContent 1) = None ->
  navigateLegacy world rt =
  (logged rt [PageGoto 0; Sleep 2000; PageGoto 1; PageContent 1],
   Normal (Some (pageHtml world 1))).
Proof.
  intros H0 H1 H2. unfold navigateLegacy, navigationLoop, tryCatch, bind, sleep.
  rewrite (perform_throws _ _ _ H0). cbn [Nat.eqb trace browser].
  rewrite (perform_ok _ _ H1). rewrite (perform_ok _ _ H2).
  unfold ret, logged. cbn [trace browser].
  rewrite <- !app_assoc. reflexivity.
Qed.

Lemma navigateLegacy_second_failure_surfaces (e e' : JsError) (rt : Runtime) :
  outcome world (PageGoto 0) = Some e ->
  outcome world (PageGoto 1) = Some e' ->
  navigateLegacy world rt =
  (logged rt [PageGoto 0; Sleep 2000; PageGoto 1], Throw e').
Proof.
  intros H0 H1. unfold navigateLegacy, navigationLoop, tryCatch, bind, sleep.
  rewrite (perform_throws _ _ _ H0). cbn [Nat.eqb trace browser].
  rewrite (perform_throws _ _ _ H1).
  unfold throw, logged. cbn [trace browser].
  rewrite <- !app_assoc. reflexivity.
Qed.

(** C1, as the code behaves: when the first page load fails and every
    other call, a second page load included, would succeed, the scrape
    still fails with that first error; the trace holds one page load and
    no delay, so no retry took place. *)
Theorem C1_first_navigation_failure_is_final
    (ai : AIEnhancementService) (url : jsstring) (options : ScrapeOptions)
    (e : JsError) :
  isValidUrl newURL url = Normal true ->
  outcome world (PageGoto 0) = Some e ->
  (forall c, c <> PageGoto 0 -> outcome world c = None) ->
  exists rt,
    scrapeWebsiteInstance unicodeUpper newURL cheerioLoad world ai url options start
      = (rt, Normal (failureResult url e)) /\
    success (failureResult url e) = false /\
    filter isGoto (trace rt) = [PageGoto 0] /\
    filter isSleep (trace rt) = [].
Proof.
  intros Hv Hg Hok.
  assert (Hp : forall c rt, c <> PageGoto 0 ->
             perform world c rt = (logged rt [c], Normal tt)).
  { intros c rt Hc. apply perform_ok. now apply Hok. }
  unfold scrapeWebsiteInstance, tryFinally, tryCatch, scrapeBody, bind, liftC.
  rewrite Hv. cbn [negb ret].
  unfold closeBrowser, bind, getBrowser, tryCatch, setBrowser.
  destruct (production world);
    repeat (progress cbn [ret logged trace browser] || rewrite Hp by discriminate);
    rewrite (navigate_first_failure_is_final _ _ Hg);
    repeat (progress cbn [ret logged trace browser] || rewrite Hp by discriminate);
    (eexists; split; [reflexivity|]);
    (split; [unfold failureResult; destruct (classifyError e); reflexivity|]);
    split; reflexivity.
Qed.

(** *** The enhancement engine *)

Lemma absentOrShort_tooShort (raw : option jsstring) :
  absentOrShort raw -> tooShort raw = true.
Proof.
  destruct raw as [s|]; simpl; [|reflexivity].
  intros H. apply Nat.ltb_lt in H. rewrite H. apply orb_true_r.
Qed.

Lemma fallbackEnhancement_nonempty (raw : option jsstring) :
  fallbackEnhancement unicodeUpper raw <> [].
Proof.
  unfold fallbackEnhancement. destruct raw as [raw|]; [|discriminate].
  destruct (negb (truthy (Some raw)) || (List.length (trim raw) =? 0));
    [discriminate|].
  set (s := capitalizeFirst unicodeUpper _).
  assert (Hne : (if negb (endsWithTerminal s) then s ++ js "." else s) <> []).
  { destruct (endsWithTerminal s) eqn:E; simpl.
    - intros ->. discriminate.
    - destruct s; discriminate. }
  revert Hne. generalize (if negb (endsWithTerminal s) then s ++ js "." else s).
  intros t Ht. unfold limitLength. destruct (1000 <? List.length t) eqn:E; [|exact Ht].
  apply Nat.ltb_lt in E. destruct t as [|c t]; [simpl in E; lia|discriminate].
Qed.

Lemma orNoDescription_nonempty (raw : option jsstring) :
  orNoDescription raw <> [].
Proof. destruct raw as [[|c s]|]; discriminate. Qed.

(** [enhanceDescription] returns on every path. *)
Lemma enhanceDescription_never_throws
    (ai : AIEnhancementService) (raw : option jsstring) (rt : Runtime) :
  exists rt' d, enhanceDescription unicodeUpper world ai raw rt = (rt', Normal d).
Proof.
  unfold enhanceDescription.
  destruct (enabled ai); cbn [negb]; [|do 2 eexists; reflexivity].
  destruct (tooShort raw); [do 2 eexists; reflexivity|].
  unfold tryCatch, bind, perform.
  destruct (outcome world ModelGenerateContent); [do 2 eexists; reflexivity|].
  destruct (truthy _ && _); do 2 eexists; reflexivity.
Qed.

(** When the remote call is attempted and fails, the answer is the local
    cleanup. *)
Lemma enhanceDescription_absorbs
    (ai : AIEnhancementService) (raw : option jsstring) (rt : Runtime) :
  remoteFails world ->
  enabled ai = true -> tooShort raw = false ->
  enhanceDescription unicodeUpper world ai raw rt =
  (logged rt [ModelGenerateContent], Normal (fallbackEnhancement unicodeUpper raw)).
Proof.
  intros Hf Hen Hlong. unfold enhanceDescription. rewrite Hen, Hlong. cbn [negb].
  unfold tryCatch, bind, perform, logged.
  destruct (outcome world ModelGenerateContent) as [e|] eqn:Ho; [reflexivity|].
  destruct Hf as [Hf|Hf]; [congruence|]. rewrite Hf. reflexivity.
Qed.

Lemma enhanceDescription_nonempty_on_failure
    (ai : AIEnhancementService) (raw : option jsstring) (rt rt' : Runtime)
    (d : jsstring) :
  remoteFails world ->
  enhanceDescription unicodeUpper world ai raw rt = (rt', Normal d) ->
  d <> [].
Proof.
  intros Hf. unfold enhanceDescription.
  destruct (enabled ai); cbn [negb].
  - destruct (tooShort raw).
    + intros [= _ <-]. apply orNoDescription_nonempty.
    + unfold tryCatch, bind, perform.
      destruct (outcome world ModelGenerateContent) as [e|] eqn:Ho.
      * intros [= _ <-]. apply fallbackEnhancement_nonempty.
      * destruct Hf as [Hf|Hf]; [congruence|]. rewrite Hf.
        intros [= _ <-]. apply fallbackEnhancement_nonempty.
  - intros [= _ <-]. apply fallbackEnhancement_nonempty.
Qed.

(** C2, as amended: on absent or short raw text [enhanceDescription]
    leaves the runtime as it found it, so no remote call is attempted,
    whatever the enabled flag; a disabled engine answers the local
    cleanup, an enabled one answers the raw text itself (the literal
    No description available when the text is absent or empty). *)
Theorem C2_short_input_short_circuit
    (ai : AIEnhancementService) (raw : option jsstring) (rt : Runtime) :
  absentOrShort raw ->
  enhanceDescription unicodeUpper world ai raw rt =
  (rt, Normal (if enabled ai
               then orNoDescription raw
               else fallbackEnhancement unicodeUpper raw)) /\
  (forall c s, raw = Some (c :: s) -> orNoDescription raw = c :: s).
Proof.
  intros H. apply absentOrShort_tooShort in H. split.
  - unfold enhanceDescription. destruct (enabled ai); cbn [negb]; [|reflexivity].
    rewrite H. reflexivity.
  - intros c s ->. reflexivity.
Qed.

(** *** The whole scrape *)

Lemma bind_normal_inv {A B} (m : M A) (k : A -> M B) (rt rt' : Runtime) (b : B) :
  bind m k rt = (rt', Normal b) ->
  exists a rt1, m rt = (rt1, Normal a) /\ k a rt1 = (rt', Normal b).
Proof.
  unfold bind. destruct (m rt) as [rt1 [a|e]]; [|discriminate].
  intros H. now exists a, rt1.
Qed.

(** The [try] block returns only through its last statement, with
    [success] true and no error field. *)
Lemma scrapeBody_returns_success
    (ai : AIEnhancementService) (url : jsstring) (options : ScrapeOptions)
    (rt rt' : Runtime) (r : ScrapeResult) :
  scrapeBody unicodeUpper newURL cheerioLoad world ai url options rt = (rt', Normal r) ->
  success r = true /\ error r = None /\ errorCategory r = None.
Proof.
  unfold scrapeBody. intros H.
  repeat (apply bind_normal_inv in H as (? & ? & _ & H); cbv beta in H).
  unfold ret in H. injection H as _ <-. repeat split.
Qed.

Lemma failureResult_shape (url : jsstring) (e : JsError) :
  let r := failureResult url e in
  success r = false /\ brandName r = None /\ description r = None /\
  rawDescription r = None /\ error r <> None /\ errorCategory r <> None.
Proof.
  unfold failureResult. destruct (classifyError e) as [c m]. simpl.
  repeat split; discriminate.
Qed.

(** C8: [scrapeWebsiteInstance] always returns a result, and the result is
    well shaped: with [success] false the three content fields are null
    and [error] and [errorCategory] are set; with [success] true [error]
    and [errorCategory] are null. *)
Theorem C8_result_shape
    (ai : AIEnhancementService) (url : jsstring) (options : ScrapeOptions)
    (rt0 : Runtime) :
  exists rt r,
    scrapeWebsiteInstance unicodeUpper newURL cheerioLoad world ai url options rt0
      = (rt, Normal r) /\
    wellShaped r.
Proof.
  unfold scrapeWebsiteInstance, tryFinally, tryCatch.
  destruct (scrapeBody unicodeUpper newURL cheerioLoad world ai url options rt0)
    as [rt1 [r|e]] eqn:Hbody.
  - destruct (closeBrowser_never_throws rt1) as [rt2 ->].
    exists rt2, r. split; [reflexivity|].
    apply scrapeBody_returns_success in Hbody as (Hs & He & Hc).
    split; intros H; [congruence | now split].
  - unfold ret. destruct (closeBrowser_never_throws rt1) as [rt2 ->].
    exists rt2, (failureResult url e). split; [reflexivity|].
    destruct (failureResult_shape url e) as (Hs & Hrest).
    split; intros H; [exact Hrest | congruence].
Qed.

Lemma navigate_first_success (rt : Runtime) :
  outcome world (PageGoto 0) = None ->
  outcome world (PageContent 0) = None ->
  navigate world rt =
  (logged rt [PageGoto 0; PageContent 0], Normal (Some (pageHtml world 0))).
Proof.
  intros H0 H1. unfold navigate, navigationLoop, tryCatch, bind.
  rewrite (perform_ok _ _ H0), (perform_ok _ _ H1).
  unfold ret, logged. cbn [trace browser]. rewrite <- app_assoc. reflexivity.
Qed.

(** When the URL is valid and no call up to the page load throws, the
    scrape succeeds whatever the enhancement step does. *)
Lemma scrape_succeeds_after_extraction
    (ai : AIEnhancementService) (url : jsstring) (options : ScrapeOptions) :
  isValidUrl newURL url = Normal true ->
  (forall c, In c (extractionCalls world) -> outcome world c = None) ->
  exists rt r raw d,
    scrapeWebsiteInstance unicodeUpper newURL cheerioLoad world ai url options start
      = (rt, Normal r) /\
    success r = true /\ error r = None /\ errorCategory r = None /\
    rawDescription r = Some raw /\ description r = Some d /\
    (if wantsEnhancement options
     then exists rt1 rt2,
            enhanceDescription unicodeUpper world ai (Some raw) rt1 = (rt2, Normal d)
     else d = raw).
Proof.
  intros Hv Hok.
  assert (Hp : forall c rt, In c (extractionCalls world) ->
             perform world c rt = (logged rt [c], Normal tt)).
  { intros c rt Hc. apply perform_ok. now apply Hok. }
  assert (Hin : forall c,
             In c [PuppeteerLaunch; BrowserNewPage; PageSetViewport;
                   PageSetDefaultNavigationTimeout; PageSetDefaultTimeout;
                   PageGoto 0; PageContent 0] ->
             In c (extractionCalls world)).
  { intros c Hc. unfold extractionCalls. apply in_or_app. now right. }
  assert (Hexe : production world = true ->
                 In ChromiumExecutablePath (extractionCalls world)).
  { intros Hprod. unfold extractionCalls. rewrite Hprod. now left. }
  unfold scrapeWebsiteInstance, tryFinally, tryCatch, scrapeBody, bind, liftC.
  rewrite Hv. cbn [negb ret].
  assert (Hpre : exists rt1,
            (if production world then perform world ChromiumExecutablePath else ret tt) start
            = (rt1, Normal tt)).
  { destruct (production world); [|eexists; reflexivity].
    rewrite Hp by auto. eexists; reflexivity. }
  destruct Hpre as [rt1 ->].
  repeat (progress cbn [ret logged trace browser setBrowser]
          || rewrite Hp by (apply Hin; simpl; tauto)).
  rewrite navigate_first_success by (apply Hok, Hin; simpl; tauto).
  cbn [loadContent]. rewrite extractBrandName_policy, extractDescription_policy.
  set (page := cheerioLoad (pageHtml world 0)).
  set (raw := descriptionPolicy page).
  destruct (wantsEnhancement options) eqn:Hw.
  - unfold tryCatch.
    match goal with
    | |- context [enhanceDescription unicodeUpper world ai (Some raw) ?rtx] =>
        destruct (enhanceDescription_never_throws ai (Some raw) rtx) as (rt2 & d & Hd);
        rewrite Hd
    end.
    unfold ret.
    match goal with
    | |- context [closeBrowser world ?rtx] =>
        destruct (closeBrowser_never_throws rtx) as [rt3 ->]
    end.
    exists rt3. eexists. exists raw, d. split; [reflexivity|].
    cbn. repeat split. do 2 eexists. exact Hd.
  - unfold ret.
    match goal with
    | |- context [closeBrowser world ?rtx] =>
        destruct (closeBrowser_never_throws rtx) as [rt3 ->]
    end.
    exists rt3. eexists. exists raw, raw. split; [reflexivity|].
    cbn. repeat split.
Qed.

(** C3: in a scrape whose extraction succeeds, a remote call that throws
    (whatever the message) or answers nothing is absorbed.
    [enhanceDescription] returns a non-empty string on every input and
    throws nothing, and where the call was attempted that string is the
    local cleanup; the scrape returns a result with [success] true, no
    error, and a non-empty description when enhancement was asked for. *)
Theorem C3_enhancement_failure_absorbed
    (ai : AIEnhancementService) (url : jsstring) (options : ScrapeOptions) :
  isValidUrl newURL url = Normal true ->
  (forall c, In c (extractionCalls world) -> outcome world c = None) ->
  remoteFails world ->
  (forall raw rt, exists rt' d,
      enhanceDescription unicodeUpper world ai raw rt = (rt', Normal d) /\
      d <> [] /\
      (enabled ai = true -> tooShort raw = false ->
       rt' = logged rt [ModelGenerateContent] /\
       d = fallbackEnhancement unicodeUpper raw)) /\
  (exists rt r d,
      scrapeWebsiteInstance unicodeUpper newURL cheerioLoad world ai url options start
        = (rt, Normal r) /\
      success r = true /\ error r = None /\ errorCategory r = None /\
      description r = Some d /\
      (wantsEnhancement options = true -> d <> [])).
Proof.
  intros Hv Hok Hf. split.
  - intros raw rt.
    destruct (enhanceDescription_never_throws ai raw rt) as (rt' & d & Hd).
    exists rt', d. split; [exact Hd|]. split.
    + eapply enhanceDescription_nonempty_on_failure; eauto.
    + intros Hen Hlong.
      rewrite (enhanceDescription_absorbs ai raw rt Hf Hen Hlong) in Hd.
      injection Hd as <- <-. now split.
  - destruct (scrape_succeeds_after_extraction ai url options Hv Hok)
      as (rt & r & raw & d & Hrun & Hs & He & Hc & _ & Hd & Henh).
    exists rt, r, d. repeat split; try assumption.
    intros Hw. rewrite Hw in Henh. destruct Henh as (rt1 & rt2 & Henh).
    eapply enhanceDescription_nonempty_on_failure; eauto.
Qed.

(** *** Character classes *)

Lemma terminal_facts (c : codeunit) :
  isTerminal c = true ->
  isWhiteSpace c = false /\ isLower c = false /\
  (c =? LT_SIGN)%N = false /\ (c =? GT_SIGN)%N = false /\ (c <? 128)%N = true.
Proof. intros H. classes. Qed.

Lemma lower_facts (c : codeunit) :
  isLower c = true ->
  isWhiteSpace c = false /\ isTerminal c = false /\
  (c =? LT_SIGN)%N = false /\ (c =? GT_SIGN)%N = false.
Proof. intros H. classes. Qed.

Lemma upper_of_lower_facts (c : codeunit) :
  isLower c = true ->
  inert (c - 32)%N = true /\ isLower (c - 32)%N = false /\ ((c - 32) <? 128)%N = true.
Proof. intros H. classes. Qed.

Lemma space_facts (c : codeunit) :
  isWhiteSpace c = true ->
  isTerminal c = false /\ isLower c = false /\
  (c =? LT_SIGN)%N = false /\ (c =? GT_SIGN)%N = false.
Proof. intros H. classes. Qed.

Lemma inert_facts (c : codeunit) :
  inert c = true ->
  isWhiteSpace c = false /\ isTerminal c = false /\
  (c =? LT_SIGN)%N = false /\ (c =? GT_SIGN)%N = false.
Proof. intros H. classes. Qed.

(** *** Global replacement: enough fuel, and the equations of the scan *)

Lemma length_induction (P : jsstring -> Prop) :
  (forall s, (forall t, List.length t < List.length s -> P t) -> P s) ->
  forall s, P s.
Proof.
  intros H s.
  assert (G : forall n t, List.length t < n -> P t).
  { induction n as [|n IH]; intros t Ht; [lia|].
    apply H. intros t' Ht'. apply IH. lia. }
  apply (G (S (List.length s))). lia.
Qed.

Lemma replaceAllFuel_enough (m : matcher) :
  consuming m ->
  forall f1 f2 s, List.length s <= f1 -> List.length s <= f2 ->
    replaceAllFuel f1 m s = replaceAllFuel f2 m s.
Proof.
  intros Hm. induction f1 as [|f1 IH]; intros f2 s H1 H2.
  - destruct s; [|simpl in H1; lia]. destruct f2; reflexivity.
  - destruct f2 as [|f2].
    + destruct s; [reflexivity | simpl in H2; lia].
    + destruct s as [|c s]; [reflexivity|]. simpl in H1, H2. simpl.
      destruct (m (c :: s)) as [[r rest]|] eqn:E.
      * apply Hm in E. simpl in E. f_equal. apply IH; lia.
      * f_equal. apply IH; lia.
Qed.

Lemma replaceAll_nil (m : matcher) : replaceAll m [] = [].
Proof. reflexivity. Qed.

Lemma replaceAll_cons (m : matcher) (c : codeunit) (s : jsstring) :
  consuming m ->
  replaceAll m (c :: s) =
  match m (c :: s) with
  | Some (r, rest) => r ++ replaceAll m rest
  | None => c :: replaceAll m s
  end.
Proof.
  intros Hm. unfold replaceAll. simpl.
  destruct (m (c :: s)) as [[r rest]|] eqn:E.
  - apply Hm in E. simpl in E. f_equal. apply replaceAllFuel_enough; auto; lia.
  - reflexivity.
Qed.

Lemma trimStart_length (s : jsstring) : List.length (trimStart s) <= List.length s.
Proof.
  induction s as [|c s IH]; simpl; [lia|].
  destruct (isWhiteSpace c); simpl; lia.
Qed.

Lemma afterGt_length (s r : jsstring) :
  afterGt s = Some r -> List.length r < List.length s.
Proof.
  revert r. induction s as [|c s IH]; intros r; simpl; [discriminate|].
  destruct (c =? GT_SIGN)%N.
  - intros [= <-]. lia.
  - intros H. apply IH in H. lia.
Qed.

Lemma matchTag_consuming : consuming matchTag.
Proof.
  intros [|c s] r rest; simpl; [discriminate|].
  destruct (c =? LT_SIGN)%N; [|discriminate].
  destruct (afterGt s) as [t|] eqn:E; [|discriminate].
  intros [= _ <-]. apply afterGt_length in E. lia.
Qed.

Lemma matchSpaces_consuming : consuming matchSpaces.
Proof.
  intros [|c s] r rest; simpl; [discriminate|].
  destruct (isWhiteSpace c); [|discriminate].
  intros [= _ <-]. pose proof (trimStart_length s). lia.
Qed.

Lemma matchSentenceGap_consuming : consuming matchSentenceGap.
Proof.
  intros [|c s] r rest; simpl; [discriminate|].
  destruct (isTerminal c); [|discriminate].
  destruct (trimStart s) as [|l t] eqn:E; [discriminate|].
  destruct (isLower l); [|discriminate].
  intros [= _ <-]. pose proof (trimStart_length s) as H. rewrite E in H. simpl in H. lia.
Qed.

Lemma stripTags_cons (c : codeunit) (s : jsstring) :
  stripTags (c :: s) =
  match matchTag (c :: s) with
  | Some (r, rest) => r ++ stripTags rest
  | None => c :: stripTags s
  end.
Proof. apply replaceAll_cons, matchTag_consuming. Qed.

Lemma collapseSpaces_cons (c : codeunit) (s : jsstring) :
  collapseSpaces (c :: s) =
  match matchSpaces (c :: s) with
  | Some (r, rest) => r ++ collapseSpaces rest
  | None => c :: collapseSpaces s
  end.
Proof. apply replaceAll_cons, matchSpaces_consuming. Qed.

Lemma fixSentenceGaps_cons (c : codeunit) (s : jsstring) :
  fixSentenceGaps (c :: s) =
  match matchSentenceGap (c :: s) with
  | Some (r, rest) => r ++ fixSentenceGaps rest
  | None => c :: fixSentenceGaps s
  end.
Proof. apply replaceAll_cons, matchSentenceGap_consuming. Qed.

(** *** Steps that leave a clean string alone *)

Lemma afterGt_none (s : jsstring) :
  existsb (N.eqb GT_SIGN) s = false -> afterGt s = None.
Proof.
  induction s as [|c s IH]; simpl; [reflexivity|].
  intros H. apply orb_false_iff in H as [Hc Hs].
  rewrite N.eqb_sym, Hc. now apply IH.
Qed.

Lemma stripTags_clean (s : jsstring) :
  containsTag s = false -> stripTags s = s.
Proof.
  induction s as [|c s IH]; [reflexivity|].
  simpl. intros H. apply orb_false_iff in H as [Hc Hs].
  rewrite stripTags_cons. simpl.
  destruct (c =? LT_SIGN)%N.
  - simpl in Hc. rewrite (afterGt_none _ Hc). f_equal. now apply IH.
  - f_equal. now apply IH.
Qed.

Lemma trimStart_head (c : codeunit) (s : jsstring) :
  isWhiteSpace c = false -> trimStart (c :: s) = c :: s.
Proof. intros H. simpl. now rewrite H. Qed.

Lemma collapseSpaces_clean (s : jsstring) :
  spacesSingle s = true -> collapseSpaces s = s.
Proof.
  induction s as [|c s IH]; [reflexivity|].
  simpl. intros H. apply andb_true_iff in H as [Hc Hs].
  rewrite collapseSpaces_cons. simpl.
  destruct (isWhiteSpace c).
  - apply andb_true_iff in Hc as [Hc Hd]. apply N.eqb_eq in Hc. subst c.
    destruct s as [|d s]; [discriminate|].
    apply negb_true_iff in Hd. rewrite (trimStart_head _ _ Hd).
    simpl. f_equal. now apply IH.
  - f_equal. now apply IH.
Qed.

Lemma trimEnd_terminal (s : jsstring) :
  endsWithTerminal s = true -> trimEnd s = s.
Proof.
  unfold endsWithTerminal, trimEnd. destruct (rev s) as [|c r] eqn:E; [discriminate|].
  intros H. apply terminal_facts in H as (H & _).
  rewrite (trimStart_head _ _ H), <- E. apply rev_involutive.
Qed.

Lemma trim_clean (s : jsstring) :
  spacesNormalized s = true -> endsWithTerminal s = true -> trim s = s.
Proof.
  intros Hn He. unfold trim.
  assert (Hs : trimStart s = s).
  { destruct s as [|c s]; [reflexivity|].
    unfold spacesNormalized in Hn. apply andb_true_iff in Hn as [Hc _].
    apply negb_true_iff in Hc. now apply trimStart_head. }
  rewrite Hs. now apply trimEnd_terminal.
Qed.

(** The last unit, read from the front. *)
Lemma endsWithTerminal_cons (c d : codeunit) (s : jsstring) :
  endsWithTerminal (c :: d :: s) = endsWithTerminal (d :: s).
Proof.
  unfold endsWithTerminal. simpl.
  destruct (rev s ++ [d]) as [|x r] eqn:E.
  - destruct (rev s); discriminate.
  - reflexivity.
Qed.

Lemma endsWithTerminal_single (c : codeunit) :
  endsWithTerminal [c] = isTerminal c.
Proof. reflexivity. Qed.

Lemma endsWithTerminal_app (s t : jsstring) :
  t <> [] -> endsWithTerminal (s ++ t) = endsWithTerminal t.
Proof.
  intros Ht. induction s as [|c s IH]; [reflexivity|].
  simpl. destruct (s ++ t) as [|d r] eqn:E.
  - destruct s; [simpl in E; contradiction | discriminate].
  - now rewrite endsWithTerminal_cons.
Qed.

(** *** The sentence-gap replacement *)

Lemma lowerNext_cons (d : codeunit) (s : jsstring) :
  lowerNext (d :: s) = if isWhiteSpace d then lowerNext s else isLower d.
Proof. unfold lowerNext. simpl. destruct (isWhiteSpace d); reflexivity. Qed.

(** The two ways the scan goes on at a unit: a match, rewritten and
    skipped, or a copy. *)
Lemma fixSentenceGaps_cases (c : codeunit) (s : jsstring) :
  (isTerminal c = true /\
   exists l rest,
     trimStart s = l :: rest /\ isLower l = true /\
     List.length rest < List.length s /\
     fixSentenceGaps (c :: s) = c :: SPACE :: l :: fixSentenceGaps rest) \/
  ((isTerminal c = false \/ lowerNext s = false) /\
   fixSentenceGaps (c :: s) = c :: fixSentenceGaps s).
Proof.
  rewrite fixSentenceGaps_cons. unfold lowerNext. simpl.
  destruct (isTerminal c); [|right; auto].
  destruct (trimStart s) as [|l rest] eqn:E; [right; auto|].
  destruct (isLower l) eqn:El; [|right; auto].
  left. split; [reflexivity|]. exists l, rest. repeat split; try assumption.
  pose proof (trimStart_length s) as H. rewrite E in H. simpl in H. lia.
Qed.

Lemma fixSentenceGaps_head (c : codeunit) (s : jsstring) :
  exists r, fixSentenceGaps (c :: s) = c :: r.
Proof.
  destruct (fixSentenceGaps_cases c s) as [(_ & l & rest & _ & _ & _ & ->) | (_ & ->)];
    eexists; reflexivity.
Qed.

Lemma lowerNext_fixSentenceGaps (s : jsstring) :
  lowerNext (fixSentenceGaps s) = lowerNext s.
Proof.
  induction s as [|d s IH]; [reflexivity|].
  destruct (fixSentenceGaps_cases d s) as [(Hd & l & rest & _ & _ & _ & ->) | (_ & ->)].
  - rewrite !lowerNext_cons. apply terminal_facts in Hd as (-> & _). reflexivity.
  - rewrite !lowerNext_cons, IH. reflexivity.
Qed.

Lemma gapsFixed_tail (c : codeunit) (s : jsstring) :
  gapsFixed (c :: s) = true -> gapsFixed s = true.
Proof. simpl. intros H. now apply andb_true_iff in H. Qed.

Lemma gapsFixed_trimStart (s : jsstring) :
  gapsFixed s = true -> gapsFixed (trimStart s) = true.
Proof.
  induction s as [|c s IH]; [reflexivity|].
  intros H. simpl. destruct (isWhiteSpace c); [|exact H].
  apply IH. eapply gapsFixed_tail, H.
Qed.

(** A string whose gaps are in place is left as it is. *)
Lemma fixSentenceGaps_fixed (s : jsstring) :
  gapsFixed s = true -> fixSentenceGaps s = s.
Proof.
  induction s as [s IH] using length_induction.
  destruct s as [|c s]; [reflexivity|]. intros H.
  pose proof (gapsFixed_tail _ _ H) as Hs.
  destruct (fixSentenceGaps_cases c s)
    as [(Hc & l & rest & Ht & Hl & Hlen & ->) | (_ & ->)].
  - simpl in H. rewrite Hc in H. unfold lowerNext in H. rewrite Ht, Hl in H.
    simpl in H. apply andb_true_iff in H as [H _].
    destruct s as [|sp [|l' s']]; try discriminate.
    simpl in H. apply andb_true_iff in H as [Hsp Hl'].
    apply N.eqb_eq in Hsp. subst sp.
    apply lower_facts in Hl' as (Hw & _).
    simpl in Ht. rewrite Hw in Ht. injection Ht as <- <-.
    do 3 f_equal. apply IH; [simpl; lia|].
    eapply gapsFixed_tail, gapsFixed_tail, Hs.
  - f_equal. apply IH; [simpl; lia | exact Hs].
Qed.

(** The replacement leaves every gap in place. *)
Lemma gapsFixed_fixSentenceGaps (s : jsstring) :
  gapsFixed (fixSentenceGaps s) = true.
Proof.
  induction s as [s IH] using length_induction.
  destruct s as [|c s]; [reflexivity|].
  destruct (fixSentenceGaps_cases c s)
    as [(Hc & l & rest & Ht & Hl & Hlen & ->) | (Hno & ->)].
  - pose proof (lower_facts _ Hl) as (_ & Hlt & _).
    cbn [gapsFixed spacedLower]. rewrite Hl, Hlt, N.eqb_refl.
    rewrite IH by (simpl; lia). rewrite !orb_true_r. reflexivity.
  - cbn [gapsFixed]. rewrite lowerNext_fixSentenceGaps.
    rewrite IH by (simpl; lia).
    destruct Hno as [-> | ->]; simpl; rewrite ?orb_true_r; reflexivity.
Qed.

Lemma fixSentenceGaps_idempotent (s : jsstring) :
  fixSentenceGaps (fixSentenceGaps s) = fixSentenceGaps s.
Proof. apply fixSentenceGaps_fixed, gapsFixed_fixSentenceGaps. Qed.

Lemma spacesSingle_tail (c : codeunit) (s : jsstring) :
  spacesSingle (c :: s) = true -> spacesSingle s = true.
Proof. simpl. intros H. now apply andb_true_iff in H. Qed.

Lemma spacesSingle_trimStart (s : jsstring) :
  spacesSingle s = true -> spacesSingle (trimStart s) = true.
Proof.
  induction s as [|c s IH]; [reflexivity|].
  intros H. simpl. destruct (isWhiteSpace c); [|exact H].
  apply IH. eapply spacesSingle_tail, H.
Qed.

Lemma spacesSingle_fixSentenceGaps (s : jsstring) :
  spacesSingle s = true -> spacesSingle (fixSentenceGaps s) = true.
Proof.
  induction s as [s IH] using length_induction.
  destruct s as [|c s]; [reflexivity|]. intros H.
  pose proof (spacesSingle_tail _ _ H) as Hs.
  destruct (fixSentenceGaps_cases c s)
    as [(Hc & l & rest & Ht & Hl & Hlen & ->) | (_ & ->)].
  - pose proof (terminal_facts _ Hc) as (Hcw & _).
    pose proof (lower_facts _ Hl) as (Hlw & _).
    pose proof (spacesSingle_trimStart _ Hs) as Hr. rewrite Ht in Hr.
    apply spacesSingle_tail in Hr.
    cbn [spacesSingle]. rewrite Hcw, Hlw, N.eqb_refl.
    rewrite IH by (simpl; lia || assumption).
    destruct (isWhiteSpace SPACE); reflexivity.
  - simpl in H. apply andb_true_iff in H as [H _].
    cbn [spacesSingle]. rewrite IH by (simpl; lia || assumption).
    rewrite andb_true_r. destruct (isWhiteSpace c); [|reflexivity].
    destruct s as [|d s]; [exact H|].
    destruct (fixSentenceGaps_head d s) as [r ->]. exact H.
Qed.

Lemma hasGt_trimStart (s : jsstring) :
  existsb (N.eqb GT_SIGN) (trimStart s) = existsb (N.eqb GT_SIGN) s.
Proof.
  induction s as [|c s IH]; [reflexivity|].
  simpl. destruct (isWhiteSpace c) eqn:E; [|reflexivity].
  apply space_facts in E as (_ & _ & _ & E). rewrite N.eqb_sym, E. exact IH.
Qed.

Lemma containsTag_trimStart (s : jsstring) :
  containsTag (trimStart s) = containsTag s.
Proof.
  induction s as [|c s IH]; [reflexivity|].
  simpl. destruct (isWhiteSpace c) eqn:E; [|reflexivity].
  apply space_facts in E as (_ & _ & E & _). rewrite E. exact IH.
Qed.

Lemma hasGt_fixSentenceGaps (s : jsstring) :
  existsb (N.eqb GT_SIGN) (fixSentenceGaps s) = existsb (N.eqb GT_SIGN) s.
Proof.
  induction s as [s IH] using length_induction.
  destruct s as [|c s]; [reflexivity|].
  destruct (fixSentenceGaps_cases c s)
    as [(Hc & l & rest & Ht & Hl & Hlen & ->) | (_ & ->)].
  - cbn [existsb]. rewrite IH by (simpl; lia).
    rewrite <- (hasGt_trimStart s), Ht. reflexivity.
  - cbn [existsb]. rewrite IH by (simpl; lia). reflexivity.
Qed.

Lemma containsTag_fixSentenceGaps (s : jsstring) :
  containsTag (fixSentenceGaps s) = containsTag s.
Proof.
  induction s as [s IH] using length_induction.
  destruct s as [|c s]; [reflexivity|].
  destruct (fixSentenceGaps_cases c s)
    as [(Hc & l & rest & Ht & Hl & Hlen & ->) | (_ & ->)].
  - pose proof (terminal_facts _ Hc) as (_ & _ & Hclt & _).
    pose proof (lower_facts _ Hl) as (_ & _ & Hllt & _).
    cbn [containsTag]. rewrite Hclt, Hllt, IH by (simpl; lia).
    rewrite <- (containsTag_trimStart s), Ht. cbn [containsTag].
    rewrite Hllt. reflexivity.
  - cbn [containsTag]. rewrite hasGt_fixSentenceGaps, IH by (simpl; lia).
    reflexivity.
Qed.

Lemma endsWithTerminal_tail (c : codeunit) (s : jsstring) :
  s <> [] -> endsWithTerminal (c :: s) = endsWithTerminal s.
Proof. intros H. destruct s; [contradiction | apply endsWithTerminal_cons]. Qed.

Lemma endsWithTerminal_trimStart (s : jsstring) :
  trimStart s <> [] -> endsWithTerminal s = endsWithTerminal (trimStart s).
Proof.
  induction s as [|c s IH]; [reflexivity|].
  simpl. destruct (isWhiteSpace c); [|reflexivity].
  intros H. rewrite endsWithTerminal_tail; [now apply IH|].
  intros ->. now apply H.
Qed.

Lemma endsWithTerminal_fixSentenceGaps (s : jsstring) :
  endsWithTerminal (fixSentenceGaps s) = endsWithTerminal s.
Proof.
  induction s as [s IH] using length_induction.
  destruct s as [|c s]; [reflexivity|].
  assert (Hcons : forall d t, List.length t < List.length (c :: s) ->
            endsWithTerminal (d :: fixSentenceGaps t) = endsWithTerminal (d :: t)).
  { intros d [|x t] Hlen; [reflexivity|].
    destruct (fixSentenceGaps_head x t) as [r Hr].
    rewrite endsWithTerminal_cons, <- (IH (x :: t)) by exact Hlen.
    rewrite Hr. apply endsWithTerminal_cons. }
  destruct (fixSentenceGaps_cases c s)
    as [(Hc & l & rest & Ht & Hl & Hlen & ->) | (_ & ->)].
  - rewrite !endsWithTerminal_cons, Hcons by (simpl; lia).
    rewrite <- Ht.
    rewrite <- endsWithTerminal_trimStart by (rewrite Ht; discriminate).
    symmetry. apply endsWithTerminal_tail. intros ->. discriminate.
  - apply Hcons. simpl. lia.
Qed.

(** *** Cutting at 997 units and appending the ellipsis *)

Lemma ellipsis_units : js "..." = [DOT; DOT; DOT].
Proof. reflexivity. Qed.

Lemma lowerNext_cut (n : nat) (s : jsstring) :
  lowerNext (firstn n s ++ [DOT; DOT; DOT]) = true -> lowerNext s = true.
Proof.
  revert n. induction s as [|d s IH]; intros n.
  - rewrite firstn_nil. vm_compute. discriminate.
  - destruct n as [|n]; [vm_compute; discriminate|].
    cbn [firstn app]. rewrite !lowerNext_cons.
    destruct (isWhiteSpace d); [apply IH | trivial].
Qed.

Lemma gapsFixed_cut (n : nat) (s : jsstring) :
  gapsFixed s = true -> gapsFixed (firstn n s ++ [DOT; DOT; DOT]) = true.
Proof.
  revert n. induction s as [|c s IH]; intros n H.
  - rewrite firstn_nil. reflexivity.
  - destruct n as [|n]; [reflexivity|].
    cbn [firstn app gapsFixed]. cbn [gapsFixed] in H.
    apply andb_true_iff in H as [Hc Hs]. rewrite (IH n Hs), andb_true_r.
    destruct (isTerminal c); [|reflexivity]. cbn [negb orb] in *.
    destruct (lowerNext (firstn n s ++ [DOT; DOT; DOT])) eqn:E; [|reflexivity].
    cbn [negb orb]. rewrite (lowerNext_cut _ _ E) in Hc. cbn [negb orb] in Hc.
    destruct s as [|sp [|l s]]; try discriminate.
    destruct n as [|[|n]].
    + vm_compute in E. discriminate.
    + cbn [spacedLower] in Hc. apply andb_true_iff in Hc as [Hsp _].
      apply N.eqb_eq in Hsp. subst sp. vm_compute in E. discriminate.
    + exact Hc.
Qed.

Lemma spacesSingle_cut (n : nat) (s : jsstring) :
  spacesSingle s = true -> spacesSingle (firstn n s ++ [DOT; DOT; DOT]) = true.
Proof.
  revert n. induction s as [|c s IH]; intros n H.
  - rewrite firstn_nil. reflexivity.
  - destruct n as [|n]; [reflexivity|].
    cbn [firstn app spacesSingle]. cbn [spacesSingle] in H.
    apply andb_true_iff in H as [Hc Hs]. rewrite (IH n Hs), andb_true_r.
    destruct (isWhiteSpace c); [|reflexivity].
    apply andb_true_iff in Hc as [Hc Hd]. rewrite Hc.
    destruct s as [|d s]; [discriminate|].
    destruct n; [reflexivity | exact Hd].
Qed.

Lemma hasGt_cut (n : nat) (s : jsstring) :
  existsb (N.eqb GT_SIGN) s = false ->
  existsb (N.eqb GT_SIGN) (firstn n s ++ [DOT; DOT; DOT]) = false.
Proof.
  revert n. induction s as [|c s IH]; intros n H.
  - rewrite firstn_nil. reflexivity.
  - destruct n as [|n]; [reflexivity|].
    cbn [firstn app existsb] in *. apply orb_false_iff in H as [-> Hs].
    now apply IH.
Qed.

Lemma containsTag_cut (n : nat) (s : jsstring) :
  containsTag s = false -> containsTag (firstn n s ++ [DOT; DOT; DOT]) = false.
Proof.
  revert n. induction s as [|c s IH]; intros n H.
  - rewrite firstn_nil. reflexivity.
  - destruct n as [|n]; [reflexivity|].
    cbn [firstn app containsTag] in *. apply orb_false_iff in H as [Hc Hs].
    rewrite (IH n Hs), orb_false_r.
    destruct (c =? LT_SIGN)%N; [|reflexivity].
    cbn [andb] in *. now apply hasGt_cut.
Qed.

(** *** Units that take no part in the cleanup *)

Lemma spacesSingle_inert_app (w s : jsstring) :
  forallb inert w = true -> spacesSingle (w ++ s) = spacesSingle s.
Proof.
  induction w as [|c w IH]; [reflexivity|].
  cbn [forallb app spacesSingle]. intros H. apply andb_true_iff in H as [Hc Hw].
  apply inert_facts in Hc as (-> & _). now apply IH.
Qed.

Lemma hasGt_inert_app (w s : jsstring) :
  forallb inert w = true ->
  existsb (N.eqb GT_SIGN) (w ++ s) = existsb (N.eqb GT_SIGN) s.
Proof.
  induction w as [|c w IH]; [reflexivity|].
  cbn [forallb app existsb]. intros H. apply andb_true_iff in H as [Hc Hw].
  apply inert_facts in Hc as (_ & _ & _ & Hc). rewrite N.eqb_sym, Hc. now apply IH.
Qed.

Lemma containsTag_inert_app (w s : jsstring) :
  forallb inert w = true -> containsTag (w ++ s) = containsTag s.
Proof.
  induction w as [|c w IH]; [reflexivity|].
  cbn [forallb app containsTag]. intros H. apply andb_true_iff in H as [Hc Hw].
  apply inert_facts in Hc as (_ & _ & -> & _). now apply IH.
Qed.

Lemma gapsFixed_inert_app (w s : jsstring) :
  forallb inert w = true -> gapsFixed (w ++ s) = gapsFixed s.
Proof.
  induction w as [|c w IH]; [reflexivity|].
  cbn [forallb app gapsFixed]. intros H. apply andb_true_iff in H as [Hc Hw].
  apply inert_facts in Hc as (_ & -> & _). now apply IH.
Qed.

(** *** Capitalizing the first unit *)

Lemma toUpperCase1_cases (c : codeunit) :
  upperCaseSane unicodeUpper -> isWhiteSpace c = false ->
  exists u us,
    toUpperCase1 unicodeUpper c = u :: us /\
    toUpperCase1 unicodeUpper u = [u] /\
    isWhiteSpace u = false /\
    ((us = [] /\ u = c) \/
     (isTerminal c = false /\ forallb inert (u :: us) = true)).
Proof.
  intros Hsane Hw. unfold toUpperCase1 at 1.
  destruct (isLower c) eqn:Hl.
  - pose proof (upper_of_lower_facts _ Hl) as (Hi & Hnl & Hlt).
    pose proof (lower_facts _ Hl) as (_ & Ht & _).
    pose proof (inert_facts _ Hi) as (Hiw & _).
    exists (c - 32)%N, []. repeat split.
    + unfold toUpperCase1. now rewrite Hnl, Hlt.
    + exact Hiw.
    + right. split; [exact Ht|]. cbn [forallb]. now rewrite Hi.
  - destruct (c <? 128)%N eqn:Hlt.
    + exists c, []. repeat split; auto.
      unfold toUpperCase1. now rewrite Hl, Hlt.
    + apply N.ltb_ge in Hlt.
      destruct (Hsane c Hlt Hw) as (u & us & -> & Hu & Hi).
      exists u, us. repeat split; auto.
      * cbn [forallb] in Hi. apply andb_true_iff in Hi as [Hi _].
        now apply inert_facts in Hi as (Hi & _).
      * right. split; [|exact Hi].
        destruct (isTerminal c) eqn:Ht; [|reflexivity].
        apply terminal_facts in Ht as (_ & _ & _ & _ & Ht).
        apply N.ltb_lt in Ht. lia.
Qed.

Lemma cleaned_nonempty (s : jsstring) : endsWithTerminal s = true -> s <> [].
Proof. intros H ->. discriminate. Qed.

(** A cleaned string is a fixed point of the cleanup. *)
Lemma fallbackEnhancement_cleaned (s : jsstring) :
  cleaned unicodeUpper s -> fallbackEnhancement unicodeUpper (Some s) = s.
Proof.
  intros (Hn & Htag & Hgap & Hend & Hcap & Hlen).
  pose proof (cleaned_nonempty _ Hend) as Hne.
  pose proof Hn as Hsingle. unfold spacesNormalized in Hsingle.
  apply andb_true_iff in Hsingle as [_ Hsingle].
  unfold fallbackEnhancement.
  rewrite (trim_clean _ Hn Hend).
  destruct s as [|c s]; [contradiction|].
  cbn [truthy negb orb List.length Nat.eqb].
  rewrite (stripTags_clean _ Htag), (collapseSpaces_clean _ Hsingle),
    (fixSentenceGaps_fixed _ Hgap), Hcap, Hend.
  cbn [negb]. unfold limitLength.
  apply Nat.ltb_ge in Hlen. now rewrite Hlen.
Qed.

Lemma limitLength_cleaned (s : jsstring) :
  spacesNormalized s = true -> containsTag s = false -> gapsFixed s = true ->
  endsWithTerminal s = true -> capitalizeFirst unicodeUpper s = s ->
  cleaned unicodeUpper (limitLength s).
Proof.
  intros Hn Htag Hgap Hend Hcap.
  pose proof (limitLength_le s) as Hle. revert Hle.
  unfold limitLength. destruct (1000 <? List.length s) eqn:E.
  2:{ intros Hle. repeat split; assumption. }
  intros Hle. unfold substring0 in *. rewrite ellipsis_units in *.
  apply Nat.ltb_lt in E.
  destruct s as [|c s]; [simpl in E; lia|].
  unfold spacesNormalized in Hn. apply andb_true_iff in Hn as [Hc Hsingle].
  repeat split.
  - unfold spacesNormalized. rewrite (spacesSingle_cut _ _ Hsingle).
    cbn [firstn app]. now rewrite Hc.
  - now apply containsTag_cut.
  - now apply gapsFixed_cut.
  - now rewrite endsWithTerminal_app by discriminate.
  - cbn [firstn app capitalizeFirst] in *.
    destruct (toUpperCase1 unicodeUpper c) as [|u us] eqn:Hu; [|].
    + exfalso. cbn [app] in Hcap. apply (f_equal (@List.length _)) in Hcap.
      simpl in Hcap. lia.
    + assert (Hus : us = []).
      { apply (f_equal (@List.length _)) in Hcap.
        rewrite length_app in Hcap. simpl in Hcap.
        destruct us; [reflexivity | simpl in Hcap; lia]. }
      subst us. cbn [app] in Hcap. injection Hcap as ->. reflexivity.
  - exact Hle.
Qed.

(** On clean input the cleanup answers a cleaned string. *)
Lemma fallbackEnhancement_gives_cleaned (x : jsstring) :
  upperCaseSane unicodeUpper ->
  endsWithTerminal x = true ->
  containsTag x = false ->
  spacesNormalized x = true ->
  cleaned unicodeUpper (fallbackEnhancement unicodeUpper (Some x)).
Proof.
  intros Hsane Hend Htag Hn.
  pose proof Hn as Hsingle. unfold spacesNormalized in Hsingle.
  apply andb_true_iff in Hsingle as [Hfirst Hsingle].
  unfold fallbackEnhancement.
  rewrite (trim_clean _ Hn Hend).
  destruct x as [|c x]; [discriminate|].
  cbn [truthy negb orb List.length Nat.eqb].
  rewrite (stripTags_clean _ Htag), (collapseSpaces_clean _ Hsingle).
  apply negb_true_iff in Hfirst.
  pose proof (spacesSingle_fixSentenceGaps _ Hsingle) as Hs5.
  pose proof (containsTag_fixSentenceGaps (c :: x)) as Ht5. rewrite Htag in Ht5.
  pose proof (gapsFixed_fixSentenceGaps (c :: x)) as Hg5.
  pose proof (endsWithTerminal_fixSentenceGaps (c :: x)) as He5. rewrite Hend in He5.
  destruct (fixSentenceGaps_head c x) as [tl Htl]. rewrite Htl in *.
  destruct (toUpperCase1_cases c Hsane Hfirst) as (u & us & Hu & Huu & Huw & Hcase).
  cbn [capitalizeFirst]. rewrite Hu.
  assert (Hclean :
    spacesSingle ((u :: us) ++ tl) = true /\
    containsTag ((u :: us) ++ tl) = false /\
    gapsFixed ((u :: us) ++ tl) = true /\
    endsWithTerminal ((u :: us) ++ tl) = true).
  { destruct Hcase as [(-> & ->) | (Hnt & Hi)].
    - cbn [app]. repeat split; assumption.
    - rewrite (spacesSingle_inert_app _ _ Hi), (containsTag_inert_app _ _ Hi),
        (gapsFixed_inert_app _ _ Hi).
      repeat split.
      + eapply spacesSingle_tail, Hs5.
      + cbn [containsTag] in Ht5. now apply orb_false_iff in Ht5.
      + eapply gapsFixed_tail, Hg5.
      + destruct tl as [|d tl].
        * rewrite endsWithTerminal_single in He5. congruence.
        * rewrite endsWithTerminal_app by discriminate.
          now rewrite endsWithTerminal_cons in He5. }
  destruct Hclean as (Hs6 & Ht6 & Hg6 & He6).
  rewrite He6. cbn [negb].
  apply limitLength_cleaned; try assumption.
  - unfold spacesNormalized. cbn [app]. rewrite Huw. exact Hs6.
  - cbn [app capitalizeFirst]. now rewrite Huu.
Qed.

(** C9: the local cleanup is idempotent on clean input.  For every string
    that ends in [.], [!] or [?], holds no tag and has normalized white
    space, cleaning the cleaned text gives the cleaned text again,
    provided the case mapping of the engine is sane outside ASCII. *)
Theorem C9_cleanup_idempotent_on_clean_input (x : jsstring) :
  upperCaseSane unicodeUpper ->
  endsWithTerminal x = true ->
  containsTag x = false ->
  spacesNormalized x = true ->
  fallbackEnhancement unicodeUpper
    (Some (fallbackEnhancement unicodeUpper (Some x)))
  = fallbackEnhancement unicodeUpper (Some x).
Proof.
  intros Hsane Hend Htag Hn.
  apply fallbackEnhancement_cleaned.
  now apply fallbackEnhancement_gives_cleaned.
Qed.

End Properties.

(* ================================================================= *)
(** ** The properties on the sample platform *)

Lemma sampleUpper_sane : upperCaseSane sampleUpper.
Proof.
  intros c Hc Hw. unfold sampleUpper at 1.
  destruct (c =? 223)%N eqn:E.
  - exists 83%N, [83%N]. repeat split; reflexivity.
  - exists c, []. split; [reflexivity|]. split.
    + unfold toUpperCase1, sampleUpper. rewrite E.
      assert (Hl : isLower c = false) by classes.
      assert (Ha : (c <? 128)%N = false) by (apply N.ltb_ge; exact Hc).
      now rewrite Hl, Ha.
    + cbn [forallb]. rewrite andb_true_r. classes.
Qed.

Lemma C1_first_navigation_failure_is_final_witness :
  exists rt,
    scrapeWebsiteInstance sampleUpper sampleURL sampleCheerio flakyWorld
      {| enabled := true |} acmeUrl defaults start
      = (rt, Normal (failureResult acmeUrl connectionReset)) /\
    success (failureResult acmeUrl connectionReset) = false /\
    filter isGoto (trace rt) = [PageGoto 0] /\
    filter isSleep (trace rt) = [].
Proof.
  apply (C1_first_navigation_failure_is_final sampleUpper sampleURL sampleCheerio
           flakyWorld {| enabled := true |} acmeUrl defaults connectionReset).
  - vm_compute. reflexivity.
  - reflexivity.
  - intros c Hc. destruct c as [| | | | | |[|n]|n|n| | | |]; try reflexivity.
    now contradiction Hc.
Defined.

(** With the loop of the earlier version the same world is survived:
    one delay, a second page load, and the content of the page. *)
Example navigateLegacy_on_flakyWorld :
  navigateLegacy flakyWorld start =
  (logged start [PageGoto 0; Sleep 2000; PageGoto 1; PageContent 1],
   Normal (Some (js "<html></html>"))).
Proof. vm_compute. reflexivity. Qed.

(** C2 as stated fails: an enabled engine answers the short text Hi
    unchanged, where the local cleanup of Hi is Hi followed by a period. *)
Lemma C2_short_input_counterexample :
  absentOrShort (Some (js "Hi")) /\
  enhanceDescription sampleUpper calmWorld {| enabled := true |} (Some (js "Hi")) start
    = (start, Normal (js "Hi")) /\
  fallbackEnhancement sampleUpper (Some (js "Hi")) = js "Hi." /\
  js "Hi" <> js "Hi.".
Proof.
  split; [cbv; lia|]. split; [vm_compute; reflexivity|].
  split; [vm_compute; reflexivity|]. vm_compute. discriminate.
Qed.

Lemma C2_short_input_short_circuit_witness :
  enhanceDescription sampleUpper calmWorld {| enabled := true |} (Some (js "Hi")) start
  = (start, Normal (if enabled {| enabled := true |}
                    then orNoDescription (Some (js "Hi"))
                    else fallbackEnhancement sampleUpper (Some (js "Hi")))) /\
  (forall c s, Some (js "Hi") = Some (c :: s) ->
               orNoDescription (Some (js "Hi")) = c :: s).
Proof.
  apply (C2_short_input_short_circuit sampleUpper calmWorld
           {| enabled := true |} (Some (js "Hi")) start).
  cbv. lia.
Defined.

Lemma C3_enhancement_failure_absorbed_witness :
  (forall raw rt, exists rt' d,
      enhanceDescription sampleUpper quotaWorld {| enabled := true |} raw rt
        = (rt', Normal d) /\
      d <> [] /\
      (enabled {| enabled := true |} = true -> tooShort raw = false ->
       rt' = logged rt [ModelGenerateContent] /\
       d = fallbackEnhancement sampleUpper raw)) /\
  (exists rt r d,
      scrapeWebsiteInstance sampleUpper sampleURL sampleCheerio quotaWorld
        {| enabled := true |} acmeUrl defaults start = (rt, Normal r) /\
      success r = true /\ error r = None /\ errorCategory r = None /\
      description r = Some d /\
      (wantsEnhancement defaults = true -> d <> [])).
Proof.
  apply (C3_enhancement_failure_absorbed sampleUpper sampleURL sampleCheerio
           quotaWorld {| enabled := true |} acmeUrl defaults).
  - vm_compute. reflexivity.
  - intros c Hc. cbn in Hc.
    repeat (destruct Hc as [<- | Hc]; [reflexivity|]). contradiction.
  - left. discriminate.
Defined.

Lemma C4_invalid_url_rejected_witness :
  exists rt r,
    scrapeWebsiteInstance sampleUpper sampleURL sampleCheerio calmWorld
      {| enabled := true |} (js "ftp://acme.test") defaults start = (rt, Normal r) /\
    success r = false /\
    errorCategory r = Some (js "INVALID_URL") /\
    trace rt = [] /\ browser rt = false.
Proof.
  apply (C4_invalid_url_rejected sampleUpper sampleURL sampleCheerio calmWorld
           {| enabled := true |} (js "ftp://acme.test") defaults).
  intros u H. vm_compute in H. injection H as <-.
  split; vm_compute; discriminate.
Defined.

Lemma C9_cleanup_idempotent_on_clean_input_witness :
  fallbackEnhancement sampleUpper
    (Some (fallbackEnhancement sampleUpper (Some (js "hello world.this is fine."))))
  = fallbackEnhancement sampleUpper (Some (js "hello world.this is fine.")).
Proof.
  apply (C9_cleanup_idempotent_on_clean_input sampleUpper
           (js "hello world.this is fine.")).
  - exact sampleUpper_sane.
  - vm_compute. reflexivity.
  - vm_compute. reflexivity.
  - vm_compute. reflexivity.
Defined.

(** The cleanup at work on that input, and on inputs outside the clean
    ones, where it is not idempotent. *)
Example cleanup_of_clean_input :
  fallbackEnhancement sampleUpper (Some (js "hello world.this is fine."))
  = js "Hello world. this is fine.".
Proof. vm_compute. reflexivity. Qed.

Example cleanup_not_idempotent_on_empty_input :
  fallbackEnhancement sampleUpper (Some []) = js "No description available" /\
  fallbackEnhancement sampleUpper (Some (js "No description available"))
  = js "No description available.".
Proof. split; vm_compute; reflexivity. Qed.

(** Where the two separators overlap the nested splits stop at the first
    [" - "] and find no whole [" | "] before it. *)
Example titleSegment_overlapping_separators :
  titleSegment (js "Acme | - Home") = js "Acme |" /\
  titleSegment (js "Acme | Home - Shop") = js "Acme".
Proof. split; vm_compute; reflexivity. Qed.

(** A whole run: the model answers a quoted, labelled, marked-up text. *)
Example scrape_with_model_reply :
  let w := sampleWorld [] connectionReset
             (js " 'Enhanced description: <b>A  truly</b> great shop.' ") in
  exists rt r,
    scrapeWebsiteInstance sampleUpper sampleURL sampleCheerio w
      {| enabled := true |} acmeUrl defaults start = (rt, Normal r) /\
    brandName r = Some (js "Acme") /\
    rawDescription r = Some (js "A great shop") /\
    description r = Some (js "A truly great shop.") /\
    enhanced r = true /\
    trace rt = [PuppeteerLaunch; BrowserNewPage; PageSetViewport;
                PageSetDefaultNavigationTimeout; PageSetDefaultTimeout;
                PageGoto 0; PageContent 0; ModelGenerateContent;
                BrowserPages; PagesClose; BrowserClose].
Proof. do 2 eexists. vm_compute. repeat split. Qed.

(* ================================================================= *)
(** ** Further properties of the two services and of their caller *)

Section Coverage.

Variable unicodeUpper : codeunit -> jsstring.
Variable newURL : jsstring -> Completion URL.
Variable cheerioLoad : jsstring -> Page.
Variable world : World.
Variable Stored : Type.
Variable insertRow : AnalysisRow -> Completion (DbReply Stored).
Variable updateRecord : EnhanceUpdate -> Completion (DbReply Stored).

#[local] Arguments N.eqb : simpl never.
#[local] Arguments N.leb : simpl never.
#[local] Arguments N.ltb : simpl never.

(** *** The navigation loop, for every initial value of [retries] *)

Lemma logged_logged (rt : Runtime) (a b : list Call) :
  logged (logged rt a) b = logged rt (a ++ b).
Proof. unfold logged. cbn [trace browser]. now rewrite app_assoc. Qed.

Lemma logged_nil (rt : Runtime) : logged rt [] = rt.
Proof. destruct rt. unfold logged. cbn [trace browser]. now rewrite app_nil_r. Qed.

(** One pass through the [try] of the loop. *)
Lemma attempt_cases (attempt : nat) (rt : Runtime) :
  let once := perform world (PageGoto attempt) ;;;
              perform world (PageContent attempt) ;;;
              ret (Some (pageHtml world attempt)) in
  (once rt = (logged rt [PageGoto attempt; PageContent attempt],
              Normal (Some (pageHtml world attempt)))) \/
  (exists e, outcome world (PageGoto attempt) = Some e /\
             once rt = (logged rt [PageGoto attempt], Throw e)) \/
  (exists e, outcome world (PageContent attempt) = Some e /\
             once rt = (logged rt [PageGoto attempt; PageContent attempt], Throw e)).
Proof.
  cbv zeta. unfold bind, perform, ret, logged. cbn [trace browser].
  destruct (outcome world (PageGoto attempt)) as [e|] eqn:Hg.
  - right; left. exists e. split; reflexivity.
  - destruct (outcome world (PageContent attempt)) as [e|] eqn:Hc.
    + right; right. exists e. split; [reflexivity|]. now rewrite <- app_assoc.
    + left. now rewrite <- app_assoc.
Qed.

Lemma navigationLoop_attempts (retries attempt delay : nat) (rt : Runtime) :
  exists l c,
    navigationLoop world (S retries) attempt delay rt = (logged rt l, c) /\
    List.length (filter isGoto l) <= S retries /\
    List.length (filter isSleep l) + 1 = List.length (filter isGoto l) /\
    (forall ms, In (Sleep ms) l -> ms = delay) /\
    match c with
    | Normal content =>
        content = Some (pageHtml world (attempt + List.length (filter isSleep l)))
    | Throw e =>
        List.length (filter isGoto l) = S retries /\
        (outcome world (PageGoto (attempt + retries)) = Some e \/
         outcome world (PageContent (attempt + retries)) = Some e)
    end.
Proof.
  revert attempt rt. induction retries as [|r IH]; intros attempt rt.
  - cbn [navigationLoop Nat.eqb]. unfold tryCatch.
    destruct (attempt_cases attempt rt) as [H | [(e & He & H) | (e & He & H)]];
      cbv zeta in H; rewrite H; unfold throw.
    + do 2 eexists. split; [reflexivity|]. cbn. rewrite Nat.add_0_r.
      repeat split; try lia. intros ms [Hm|[Hm|[]]]; discriminate.
    + do 2 eexists. split; [reflexivity|]. cbn. rewrite Nat.add_0_r.
      repeat split; try lia; auto. intros ms [Hm|[]]; discriminate.
    + do 2 eexists. split; [reflexivity|]. cbn. rewrite Nat.add_0_r.
      repeat split; try lia; auto. intros ms [Hm|[Hm|[]]]; discriminate.
  - cbn [navigationLoop Nat.eqb]. unfold tryCatch.
    assert (Hrec : forall l0,
      filter isGoto l0 = [PageGoto attempt] -> filter isSleep l0 = [] ->
      (forall ms, ~ In (Sleep ms) l0) ->
      exists l c,
        (sleep delay ;;; navigationLoop world (S r) (S attempt) delay) (logged rt l0)
          = (logged rt l, c) /\
        List.length (filter isGoto l) <= S (S r) /\
        List.length (filter isSleep l) + 1 = List.length (filter isGoto l) /\
        (forall ms, In (Sleep ms) l -> ms = delay) /\
        match c with
        | Normal content =>
            content = Some (pageHtml world (attempt + List.length (filter isSleep l)))
        | Throw e =>
            List.length (filter isGoto l) = S (S r) /\
            (outcome world (PageGoto (attempt + S r)) = Some e \/
             outcome world (PageContent (attempt + S r)) = Some e)
        end).
    { intros l0 Hg0 Hs0 Hn0. unfold bind, sleep. cbn [trace browser logged].
      match goal with
      | |- context [navigationLoop world (S r) (S attempt) delay ?rtx] =>
          destruct (IH (S attempt) rtx) as (l' & c' & Hrun & Hle & Hcnt & Hms & Hc)
      end.
      rewrite Hrun. exists (l0 ++ Sleep delay :: l'), c'.
      split.
      { unfold logged. cbn [trace browser]. now rewrite <- !app_assoc. }
      rewrite !filter_app. cbn [filter isGoto isSleep]. rewrite Hg0, Hs0.
      cbn [app List.length]. repeat split; try lia.
      - intros ms Hin. apply in_app_or in Hin as [Hin|[Hin|Hin]].
        + now apply Hn0 in Hin.
        + now injection Hin as <-.
        + now apply Hms.
      - destruct c' as [content|e].
        + rewrite Hc. do 2 f_equal. lia.
        + destruct Hc as [Hc1 Hc2]. split; [lia|].
          replace (attempt + S r) with (S attempt + r) by lia. exact Hc2. }
    destruct (attempt_cases attempt rt) as [H | [(e & He & H) | (e & He & H)]];
      cbv zeta in H; rewrite H.
    + do 2 eexists. split; [reflexivity|]. cbn. rewrite Nat.add_0_r.
      repeat split; try lia. intros ms [Hm|[Hm|[]]]; discriminate.
    + apply Hrec; try reflexivity. intros ms [Hm|[]]; discriminate.
    + apply Hrec; try reflexivity. intros ms [Hm|[Hm|[]]]; discriminate.
Qed.

(** X1: started with [retries] at least 1, the navigation loop loads the
    page at most [retries] times, waits [delay] between two loads and
    never after the last, answers the content of the load that succeeded,
    and throws only when all [retries] loads failed, with the error of
    the last one.  It never leaves [content] undefined. *)
Theorem X1_navigation_attempts_bounded (retries delay : nat) (rt : Runtime) :
  0 < retries ->
  exists l c,
    navigationLoop world retries 0 delay rt = (logged rt l, c) /\
    List.length (filter isGoto l) <= retries /\
    List.length (filter isSleep l) + 1 = List.length (filter isGoto l) /\
    (forall ms, In (Sleep ms) l -> ms = delay) /\
    match c with
    | Normal content =>
        content = Some (pageHtml world (List.length (filter isSleep l)))
    | Throw e =>
        List.length (filter isGoto l) = retries /\
        (outcome world (PageGoto (retries - 1)) = Some e \/
         outcome world (PageContent (retries - 1)) = Some e)
    end.
Proof.
  intros Hpos. destruct retries as [|r]; [lia|].
  destruct (navigationLoop_attempts r 0 delay rt) as (l & c & Hrun & H).
  exists l, c. split; [exact Hrun|].
  replace (S r - 1) with r by lia. exact H.
Qed.

(** X2: the loop of the earlier [scrapeWebsite], which starts with
    [retries] at 2: after a first load that throws it waits 2000 ms and
    loads once more; a second load that succeeds gives the content of the
    page, a second load that throws surfaces its error, with no third
    load and no second wait. *)
Theorem X2_legacy_loop_retries_once (e : JsError) (rt : Runtime) :
  outcome world (PageGoto 0) = Some e ->
  (outcome world (PageGoto 1) = None ->
   outcome world (PageContent 1) = None ->
   navigateLegacy world rt =
   (logged rt [PageGoto 0; Sleep 2000; PageGoto 1; PageContent 1],
    Normal (Some (pageHtml world 1)))) /\
  (forall e', outcome world (PageGoto 1) = Some e' ->
   navigateLegacy world rt =
   (logged rt [PageGoto 0; Sleep 2000; PageGoto 1], Throw e')).
Proof.
  intros H0. split.
  - intros H1 H2. now apply navigateLegacy_retries_once with (e := e).
  - intros e' H1. now apply navigateLegacy_second_failure_surfaces with (e := e).
Qed.

(** *** Which calls a computation makes *)

Lemma emitsOnly_ret {A} (P : Call -> bool) (a : A) : emitsOnly P (ret a).
Proof.
  intros rt rt' c [= <- <-]. split; [auto|]. exists []. now rewrite app_nil_r.
Qed.

Lemma emitsOnly_throw {A} (P : Call -> bool) (e : JsError) :
  emitsOnly P (@throw A e).
Proof.
  intros rt rt' c [= <- <-]. split; [auto|]. exists []. now rewrite app_nil_r.
Qed.

Lemma emitsOnly_liftC {A} (P : Call -> bool) (x : Completion A) :
  emitsOnly P (liftC x).
Proof.
  intros rt rt' c [= <- <-]. split; [auto|]. exists []. now rewrite app_nil_r.
Qed.

Lemma emitsOnly_getBrowser (P : Call -> bool) : emitsOnly P getBrowser.
Proof.
  intros rt rt' c [= <- <-]. split; [auto|]. exists []. now rewrite app_nil_r.
Qed.

Lemma emitsOnly_setBrowser (P : Call -> bool) : emitsOnly P setBrowser.
Proof.
  intros rt rt' c [= <- <-]. split; [auto|]. exists []. cbn. now rewrite app_nil_r.
Qed.

Lemma emitsOnly_perform (P : Call -> bool) (x : Call) :
  P x = true -> emitsOnly P (perform world x).
Proof.
  intros Hx rt rt' c [= <- <-]. split; [auto|]. exists [x]. cbn. now rewrite Hx.
Qed.

Lemma emitsOnly_sleep (P : Call -> bool) (ms : nat) :
  P (Sleep ms) = true -> emitsOnly P (sleep ms).
Proof.
  intros Hx rt rt' c [= <- <-]. split; [auto|]. exists [Sleep ms]. cbn. now rewrite Hx.
Qed.

Lemma emitsOnly_bind {A B} (P : Call -> bool) (m : M A) (k : A -> M B) :
  emitsOnly P m -> (forall a, emitsOnly P (k a)) -> emitsOnly P (bind m k).
Proof.
  intros Hm Hk rt rt' c. unfold bind.
  destruct (m rt) as [rt1 [a|e]] eqn:E; destruct (Hm _ _ _ E) as (Hb & l & Hl & HP).
  - intros H. destruct (Hk a _ _ _ H) as (Hb' & l' & Hl' & HP').
    split; [auto|]. exists (l ++ l'). rewrite Hl', Hl, app_assoc.
    split; [reflexivity|]. rewrite forallb_app. now rewrite HP, HP'.
  - intros [= <- <-]. split; [auto|]. now exists l.
Qed.

Lemma emitsOnly_tryCatch {A} (P : Call -> bool) (m : M A) (h : JsError -> M A) :
  emitsOnly P m -> (forall e, emitsOnly P (h e)) -> emitsOnly P (tryCatch m h).
Proof.
  intros Hm Hh rt rt' c. unfold tryCatch.
  destruct (m rt) as [rt1 [a|e]] eqn:E; destruct (Hm _ _ _ E) as (Hb & l & Hl & HP).
  - intros [= <- <-]. split; [auto|]. now exists l.
  - intros H. destruct (Hh e _ _ _ H) as (Hb' & l' & Hl' & HP').
    split; [auto|]. exists (l ++ l'). rewrite Hl', Hl, app_assoc.
    split; [reflexivity|]. rewrite forallb_app. now rewrite HP, HP'.
Qed.

Lemma emitsOnly_tryFinally {A} (P : Call -> bool) (m : M A) (f : M unit) :
  emitsOnly P m -> emitsOnly P f -> emitsOnly P (tryFinally m f).
Proof.
  intros Hm Hf rt rt' c. unfold tryFinally.
  destruct (m rt) as [rt1 c1] eqn:E. destruct (Hm _ _ _ E) as (Hb & l & Hl & HP).
  destruct (f rt1) as [rt2 [u|e]] eqn:E2;
    destruct (Hf _ _ _ E2) as (Hb' & l' & Hl' & HP');
    intros [= <- <-]; (split; [auto|]); exists (l ++ l');
    rewrite Hl', Hl, app_assoc; (split; [reflexivity|]);
    rewrite forallb_app; now rewrite HP, HP'.
Qed.

Lemma emitsOnly_if {A} (P : Call -> bool) (b : bool) (m1 m2 : M A) :
  emitsOnly P m1 -> emitsOnly P m2 -> emitsOnly P (if b then m1 else m2).
Proof. destruct b; auto. Qed.

Lemma emitsOnly_navigationLoop (P : Call -> bool) (retries attempt delay : nat) :
  (forall n, P (PageGoto n) = true) ->
  (forall n, P (PageContent n) = true) ->
  P (Sleep delay) = true ->
  emitsOnly P (navigationLoop world retries attempt delay).
Proof.
  intros Hg Hc Hs. revert attempt.
  induction retries as [|r IH]; intros attempt; cbn [navigationLoop].
  - apply emitsOnly_ret.
  - apply emitsOnly_tryCatch.
    + repeat (apply emitsOnly_bind; [|intros ?]);
        auto using emitsOnly_perform, emitsOnly_ret.
    + intros e. apply emitsOnly_if; [apply emitsOnly_throw|].
      apply emitsOnly_bind; [now apply emitsOnly_sleep | intros _; apply IH].
Qed.

Lemma emitsOnly_enhanceDescription (P : Call -> bool)
    (ai : AIEnhancementService) (raw : option jsstring) :
  (remoteCallDue ai raw = true -> P ModelGenerateContent = true) ->
  emitsOnly P (enhanceDescription unicodeUpper world ai raw).
Proof.
  intros HP. unfold enhanceDescription, remoteCallDue in *.
  destruct (enabled ai); cbn [negb andb] in *; [|apply emitsOnly_ret].
  destruct (tooShort raw) eqn:Hshort; [apply emitsOnly_ret|].
  assert (Hdue : P ModelGenerateContent = true).
  { apply HP. destruct raw as [s|]; [|discriminate].
    cbn [tooShort] in Hshort. apply orb_false_iff in Hshort as [_ Hlen].
    apply Nat.ltb_ge in Hlen. now apply Nat.leb_le. }
  apply emitsOnly_tryCatch; [|intros e; apply emitsOnly_ret].
  apply emitsOnly_bind; [now apply emitsOnly_perform|]. intros _.
  apply emitsOnly_if; apply emitsOnly_ret.
Qed.

(** *** The browser is closed when it was opened *)

Lemma scrapeBody_after_launch
    (ai : AIEnhancementService) (url : jsstring) (options : ScrapeOptions) :
  scrapeBody unicodeUpper newURL cheerioLoad world ai url options =
  (valid <- liftC (isValidUrl newURL url) ;;
   (if negb valid then throw (mkError (js "Invalid URL format")) else ret tt) ;;;
   (if production world then perform world ChromiumExecutablePath else ret tt) ;;;
   perform world PuppeteerLaunch ;;;
   setBrowser ;;;
   scrapeAfterLaunch unicodeUpper cheerioLoad world ai url options).
Proof. reflexivity. Qed.

Lemma emitsOnly_scrapeAfterLaunch (P : Call -> bool)
    (ai : AIEnhancementService) (url : jsstring) (options : ScrapeOptions) :
  (forall c, isClosing c = false -> isRemoteCall c = false -> P c = true) ->
  (wantsEnhancement options = true -> enabled ai = true ->
   P ModelGenerateContent = true) ->
  emitsOnly P (scrapeAfterLaunch unicodeUpper cheerioLoad world ai url options).
Proof.
  intros HP Hremote. unfold scrapeAfterLaunch.
  repeat (apply emitsOnly_bind; [now apply emitsOnly_perform, HP | intros _]).
  apply emitsOnly_bind.
  { apply emitsOnly_navigationLoop; intros; now apply HP. }
  intros content. apply emitsOnly_bind; [apply emitsOnly_liftC | intros page].
  apply emitsOnly_bind; [apply emitsOnly_liftC | intros brand].
  apply emitsOnly_bind; [apply emitsOnly_liftC | intros raw].
  cbv zeta. apply emitsOnly_bind; [|intros d; apply emitsOnly_ret].
  destruct (wantsEnhancement options); [|apply emitsOnly_ret].
  apply emitsOnly_tryCatch; [|intros e; apply emitsOnly_ret].
  apply emitsOnly_enhanceDescription. unfold remoteCallDue.
  intros H. apply andb_true_iff in H as [H _]. auto.
Qed.

Lemma closeBrowser_teardown (rt : Runtime) :
  browser rt = true ->
  closeBrowser world rt = (logged rt (teardown world), Normal tt).
Proof.
  intros Hb. unfold closeBrowser, bind, getBrowser, tryCatch, perform, ret.
  rewrite Hb. unfold teardown, logged. cbn [trace browser].
  destruct (outcome world BrowserPages); [reflexivity|].
  destruct (outcome world PagesClose); [now rewrite <- app_assoc|].
  destruct (outcome world BrowserClose); now rewrite <- !app_assoc.
Qed.

(** The [try] block sets [browser] exactly when the launch succeeds, and
    makes none of the closing calls. *)
Lemma scrapeBody_opens
    (ai : AIEnhancementService) (url : jsstring) (options : ScrapeOptions)
    (rt : Runtime) :
  browser rt = false ->
  exists rt1 c l,
    scrapeBody unicodeUpper newURL cheerioLoad world ai url options rt = (rt1, c) /\
    trace rt1 = trace rt ++ l /\
    forallb (fun x => negb (isClosing x)) l = true /\
    browser rt1 = launches newURL world url.
Proof.
  intros Hb. rewrite scrapeBody_after_launch. unfold launches.
  rewrite isValidUrl_total.
  destruct (match newURL url with
            | Normal u => eqb (protocol u) (js "http:") || eqb (protocol u) (js "https:")
            | Throw _ => false
            end).
  2:{ unfold bind, liftC, throw. cbn [negb].
      exists rt, (Throw (mkError (js "Invalid URL format"))), [].
      rewrite app_nil_r. auto. }
  unfold bind, liftC, perform, ret, setBrowser. cbn [negb trace browser].
  assert (Hafter : forall pre,
    forallb (fun x => negb (isClosing x)) pre = true ->
    exists rt1 c l,
      scrapeAfterLaunch unicodeUpper cheerioLoad world ai url options
        {| trace := trace rt ++ pre; browser := true |} = (rt1, c) /\
      trace rt1 = trace rt ++ l /\
      forallb (fun x => negb (isClosing x)) l = true /\
      browser rt1 = true).
  { intros pre Hpre.
    destruct (scrapeAfterLaunch unicodeUpper cheerioLoad world ai url options
                {| trace := trace rt ++ pre; browser := true |}) as [rt1 c] eqn:E.
    apply (emitsOnly_scrapeAfterLaunch (fun x => negb (isClosing x))) in E
      as (Hbr & l & Hl & HP).
    - exists rt1, c, (pre ++ l). split; [reflexivity|].
      cbn [trace browser] in *. rewrite Hl, app_assoc, forallb_app, Hpre, HP. auto.
    - intros x Hx _. now rewrite Hx.
    - reflexivity. }
  destruct (production world).
  - destruct (outcome world ChromiumExecutablePath) as [e|].
    + exists {| trace := trace rt ++ [ChromiumExecutablePath]; browser := browser rt |},
        (Throw e), [ChromiumExecutablePath]. cbn. auto.
    + cbn [trace browser andb].
      destruct (outcome world PuppeteerLaunch) as [e|].
      * eexists _, (Throw e), [ChromiumExecutablePath; PuppeteerLaunch].
        split; [reflexivity|]. cbn. rewrite <- app_assoc. auto.
      * rewrite <- app_assoc.
        apply (Hafter ([ChromiumExecutablePath] ++ [PuppeteerLaunch])). reflexivity.
  - cbn [andb]. destruct (outcome world PuppeteerLaunch) as [e|].
    + eexists _, (Throw e), [PuppeteerLaunch]. split; [reflexivity|]. cbn. auto.
    + apply (Hafter [PuppeteerLaunch]). reflexivity.
Qed.

(** Every run returns: what the [try] block returned, or the failure
    object of what it threw. *)
Lemma scrape_result_cases
    (ai : AIEnhancementService) (url : jsstring) (options : ScrapeOptions)
    (rt0 : Runtime) :
  exists rt r,
    scrapeWebsiteInstance unicodeUpper newURL cheerioLoad world ai url options rt0
      = (rt, Normal r) /\
    ((exists rt1,
        scrapeBody unicodeUpper newURL cheerioLoad world ai url options rt0
          = (rt1, Normal r)) \/
     (exists rt1 e,
        scrapeBody unicodeUpper newURL cheerioLoad world ai url options rt0
          = (rt1, Throw e) /\ r = failureResult url e)).
Proof.
  unfold scrapeWebsiteInstance, tryFinally, tryCatch, ret.
  destruct (scrapeBody unicodeUpper newURL cheerioLoad world ai url options rt0)
    as [rt1 [r|e]] eqn:E;
    destruct (closeBrowser_never_throws world rt1) as [rt2 ->].
  - exists rt2, r. split; [reflexivity|]. left. now exists rt1.
  - exists rt2, (failureResult url e). split; [reflexivity|]. right. now exists rt1, e.
Qed.

Lemma scrape_trace_shape
    (ai : AIEnhancementService) (url : jsstring) (options : ScrapeOptions)
    (rt0 : Runtime) :
  browser rt0 = false ->
  exists rt r body,
    scrapeWebsiteInstance unicodeUpper newURL cheerioLoad world ai url options rt0
      = (rt, Normal r) /\
    trace rt = trace rt0 ++ body ++
               (if launches newURL world url then teardown world else []) /\
    forallb (fun x => negb (isClosing x)) body = true /\
    browser rt = launches newURL world url.
Proof.
  intros Hb0.
  destruct (scrapeBody_opens ai url options rt0 Hb0)
    as (rt1 & c & l & Hbody & Hl & HP & Hb).
  unfold scrapeWebsiteInstance, tryFinally, tryCatch, ret. rewrite Hbody.
  assert (Hclose : exists rt2,
            closeBrowser world rt1 = (rt2, Normal tt) /\
            trace rt2 = trace rt0 ++ l ++
                        (if launches newURL world url then teardown world else []) /\
            browser rt2 = launches newURL world url).
  { destruct (launches newURL world url).
    - rewrite (closeBrowser_teardown _ Hb). eexists. split; [reflexivity|].
      cbn [logged trace browser]. now rewrite Hl, Hb, app_assoc.
    - rewrite (closeBrowser_unopened world _ Hb). exists rt1.
      rewrite app_nil_r. auto. }
  destruct Hclose as (rt2 & Hc & Ht & Hb2).
  destruct c as [r|e]; rewrite Hc; eexists rt2, _, l; auto.
Qed.

(** X3: the trace of every run of [scrapeWebsiteInstance] is what the
    [try] block called, none of it a closing call, followed by the calls
    of the [finally] block, which are made exactly when the launch
    succeeded; [browser] is set at the end exactly in that case. *)
Theorem X3_teardown_follows_launch
    (ai : AIEnhancementService) (url : jsstring) (options : ScrapeOptions) :
  exists rt r body,
    scrapeWebsiteInstance unicodeUpper newURL cheerioLoad world ai url options start
      = (rt, Normal r) /\
    trace rt = body ++ (if launches newURL world url then teardown world else []) /\
    forallb (fun x => negb (isClosing x)) body = true /\
    browser rt = launches newURL world url.
Proof.
  destruct (scrape_trace_shape ai url options start eq_refl)
    as (rt & r & body & Hrun & Ht & HP & Hb).
  exists rt, r, body. cbn [start trace app] in Ht. auto.
Qed.

(** X4: [browser.close()] is called exactly when the launch succeeded
    and neither [browser.pages()] nor the closing of the pages threw: a
    failure of one of those two leaves the browser unclosed, and an
    unlaunched browser is never closed. *)
Theorem X4_browser_close_condition
    (ai : AIEnhancementService) (url : jsstring) (options : ScrapeOptions) :
  exists rt r,
    scrapeWebsiteInstance unicodeUpper newURL cheerioLoad world ai url options start
      = (rt, Normal r) /\
    (In BrowserClose (trace rt) <->
     launches newURL world url = true /\
     outcome world BrowserPages = None /\
     outcome world PagesClose = None).
Proof.
  destruct (scrape_trace_shape ai url options start eq_refl)
    as (rt & r & body & Hrun & Ht & HP & _).
  cbn [start trace app] in Ht.
  exists rt, r. split; [exact Hrun|]. rewrite Ht.
  assert (Hbody : ~ In BrowserClose body).
  { intros Hin. rewrite forallb_forall in HP. apply HP in Hin. discriminate. }
  unfold teardown. split.
  - intros Hin. apply in_app_or in Hin as [Hin|Hin]; [contradiction|].
    destruct (launches newURL world url); [|contradiction].
    destruct (outcome world BrowserPages).
    { destruct Hin as [Hin|[]]. discriminate. }
    destruct (outcome world PagesClose).
    { destruct Hin as [Hin|[Hin|[]]]; discriminate. }
    auto.
  - intros (-> & -> & ->). apply in_or_app. right. cbn. auto.
Qed.

(** *** The error taxonomy *)


Lemma classifyError_domain (e : JsError) :
  includes (message e) (js "ERR_NAME_NOT_RESOLVED") = true \/
  includes (message e) (js "ENOTFOUND") = true ->
  classifyError e =
  (js "DOMAIN_NOT_FOUND", js "Website domain could not be found").
Proof.
  intros H. unfold classifyError.
  destruct H as [-> | ->]; [reflexivity|]. now rewrite orb_true_r.
Qed.


(** The whole run when only the first page load throws. *)
Lemma scrape_first_load_fails
    (ai : AIEnhancementService) (url : jsstring) (options : ScrapeOptions)
    (e : JsError) :
  isValidUrl newURL url = Normal true ->
  outcome world (PageGoto 0) = Some e ->
  (forall c, c <> PageGoto 0 -> outcome world c = None) ->
  scrapeWebsiteInstance unicodeUpper newURL cheerioLoad world ai url options start
  = (logged {| trace := []; browser := true |}
       ((if production world then [ChromiumExecutablePath] else []) ++
        [PuppeteerLaunch; BrowserNewPage; PageSetViewport;
         PageSetDefaultNavigationTimeout; PageSetDefaultTimeout; PageGoto 0;
         BrowserPages; PagesClose; BrowserClose]),
     Normal (failureResult url e)).
Proof.
  intros Hv Hg Hok.
  assert (Hp : forall c rt, c <> PageGoto 0 ->
             perform world c rt = (logged rt [c], Normal tt)).
  { intros c rt Hc. apply perform_ok. now apply Hok. }
  unfold scrapeWebsiteInstance, tryFinally, tryCatch, scrapeBody, bind, liftC.
  rewrite Hv. cbn [negb ret].
  unfold closeBrowser, bind, getBrowser, tryCatch, setBrowser.
  destruct (production world);
    repeat (progress cbn [ret logged trace browser] || rewrite Hp by discriminate);
    rewrite (navigate_first_failure_is_final world _ _ Hg);
    repeat (progress cbn [ret logged trace browser] || rewrite Hp by discriminate);
    reflexivity.
Qed.

(** X6: when the URL is valid and only the first page load throws, with
    a message that mentions ERR_NAME_NOT_RESOLVED or ENOTFOUND (whatever
    else it mentions), the result is a failure of category
    DOMAIN_NOT_FOUND with the fixed message, the raw message is kept as
    [originalError], and the run ends by closing the pages and the
    browser. *)
Theorem X6_domain_not_found
    (ai : AIEnhancementService) (url : jsstring) (options : ScrapeOptions)
    (e : JsError) :
  isValidUrl newURL url = Normal true ->
  outcome world (PageGoto 0) = Some e ->
  (forall c, c <> PageGoto 0 -> outcome world c = None) ->
  includes (message e) (js "ERR_NAME_NOT_RESOLVED") = true \/
  includes (message e) (js "ENOTFOUND") = true ->
  exists rt r,
    scrapeWebsiteInstance unicodeUpper newURL cheerioLoad world ai url options start
      = (rt, Normal r) /\
    success r = false /\
    errorCategory r = Some (js "DOMAIN_NOT_FOUND") /\
    error r = Some (js "Website domain could not be found") /\
    originalError r = Some (message e) /\
    trace rt =
      (if production world then [ChromiumExecutablePath] else []) ++
      [PuppeteerLaunch; BrowserNewPage; PageSetViewport;
       PageSetDefaultNavigationTimeout; PageSetDefaultTimeout; PageGoto 0;
       BrowserPages; PagesClose; BrowserClose].
Proof.
  intros Hv Hg Hok Hmsg.
  rewrite (scrape_first_load_fails ai url options e Hv Hg Hok).
  do 2 eexists. split; [reflexivity|].
  unfold failureResult. rewrite (classifyError_domain e Hmsg).
  cbn. repeat split.
Qed.

(** *** Trimming *)

Lemma trimStart_split (s : jsstring) :
  exists w, s = w ++ trimStart s /\ blank w = true.
Proof.
  induction s as [|c s (w & Hs & Hw)].
  - now exists [].
  - cbn [trimStart]. destruct (isWhiteSpace c) eqn:E.
    + exists (c :: w). cbn [app blank forallb]. rewrite E. fold (blank w).
      rewrite Hw. split; [now rewrite <- Hs | reflexivity].
    + now exists [].
Qed.

Lemma trimStart_no_space (s : jsstring) :
  match trimStart s with
  | c :: _ => isWhiteSpace c = false
  | [] => True
  end.
Proof.
  induction s as [|c s IH]; [exact I|].
  cbn [trimStart]. destruct (isWhiteSpace c) eqn:E; [exact IH | exact E].
Qed.

Lemma trimStart_blank (s : jsstring) : blank s = true -> trimStart s = [].
Proof.
  induction s as [|c s IH]; [reflexivity|].
  cbn [blank forallb trimStart]. intros H. apply andb_true_iff in H as [-> H].
  now apply IH.
Qed.

Lemma trimEnd_prefix (s : jsstring) :
  exists w, s = trimEnd s ++ w /\ blank w = true.
Proof.
  unfold trimEnd. destruct (trimStart_split (rev s)) as (w & Hs & Hw).
  exists (rev w). split.
  - rewrite <- rev_app_distr, <- Hs. now rewrite rev_involutive.
  - unfold blank in *. rewrite forallb_forall in *. intros x Hx.
    apply Hw. now apply in_rev.
Qed.

Lemma trim_noOuterSpace (s : jsstring) : noOuterSpace (trim s).
Proof.
  unfold noOuterSpace, trim. split.
  - destruct (trimEnd_prefix (trimStart s)) as (w & Hs & _).
    pose proof (trimStart_no_space s) as Hhead.
    destruct (trimEnd (trimStart s)) as [|c t]; [exact I|].
    rewrite Hs in Hhead. exact Hhead.
  - unfold trimEnd. rewrite rev_involutive. apply trimStart_no_space.
Qed.

Lemma trim_blank (s : jsstring) : blank s = true -> trim s = [].
Proof. intros H. unfold trim. now rewrite (trimStart_blank _ H). Qed.

(** *** Tags never survive the sanitizer *)

Lemma afterGt_none_inv (s : jsstring) :
  afterGt s = None -> existsb (N.eqb GT_SIGN) s = false.
Proof.
  induction s as [|c s IH]; [reflexivity|].
  cbn [afterGt existsb]. rewrite (N.eqb_sym GT_SIGN c).
  destruct (c =? GT_SIGN)%N; [discriminate|]. exact IH.
Qed.

Lemma hasGt_stripTags (s : jsstring) :
  existsb (N.eqb GT_SIGN) s = false ->
  existsb (N.eqb GT_SIGN) (stripTags s) = false.
Proof.
  induction s as [|c s IH]; [reflexivity|].
  cbn [existsb]. intros H. apply orb_false_iff in H as [Hc Hs].
  rewrite stripTags_cons. cbn [matchTag]. rewrite (afterGt_none _ Hs).
  destruct (c =? LT_SIGN)%N; cbn [existsb]; now rewrite Hc, IH.
Qed.

Lemma containsTag_stripTags (s : jsstring) : containsTag (stripTags s) = false.
Proof.
  induction s as [s IH] using length_induction.
  destruct s as [|c s]; [reflexivity|].
  rewrite stripTags_cons. cbn [matchTag].
  destruct (c =? LT_SIGN)%N eqn:Hc.
  - destruct (afterGt s) as [rest|] eqn:E.
    + cbn [app]. apply IH. apply afterGt_length in E. simpl. lia.
    + cbn [containsTag]. rewrite IH by (simpl; lia).
      rewrite (hasGt_stripTags _ (afterGt_none_inv _ E)).
      now rewrite andb_false_r.
  - cbn [containsTag]. rewrite Hc, IH by (simpl; lia). reflexivity.
Qed.

Lemma hasGt_collapseSpaces (s : jsstring) :
  existsb (N.eqb GT_SIGN) (collapseSpaces s) = existsb (N.eqb GT_SIGN) s.
Proof.
  induction s as [s IH] using length_induction.
  destruct s as [|c s]; [reflexivity|].
  rewrite collapseSpaces_cons. cbn [matchSpaces].
  destruct (isWhiteSpace c) eqn:E.
  - pose proof (trimStart_length s).
    cbn [app existsb]. rewrite IH by (simpl; lia). rewrite hasGt_trimStart.
    apply space_facts in E as (_ & _ & _ & E). rewrite (N.eqb_sym GT_SIGN c), E.
    reflexivity.
  - cbn [existsb]. rewrite IH by (simpl; lia). reflexivity.
Qed.

Lemma containsTag_collapseSpaces (s : jsstring) :
  containsTag (collapseSpaces s) = containsTag s.
Proof.
  induction s as [s IH] using length_induction.
  destruct s as [|c s]; [reflexivity|].
  rewrite collapseSpaces_cons. cbn [matchSpaces].
  destruct (isWhiteSpace c) eqn:E.
  - pose proof (trimStart_length s).
    cbn [app containsTag]. rewrite IH by (simpl; lia). rewrite containsTag_trimStart.
    apply space_facts in E as (_ & _ & E & _). rewrite E. reflexivity.
  - cbn [containsTag]. rewrite hasGt_collapseSpaces, IH by (simpl; lia). reflexivity.
Qed.

Lemma containsTag_prefix (a b : jsstring) :
  containsTag (a ++ b) = false -> containsTag a = false.
Proof.
  induction a as [|c a IH]; [reflexivity|].
  cbn [app containsTag]. rewrite existsb_app. intros H.
  apply orb_false_iff in H as [H1 H2]. rewrite (IH H2), orb_false_r.
  destruct (c =? LT_SIGN)%N; [|reflexivity]. cbn [andb] in *.
  now apply orb_false_iff in H1.
Qed.

Lemma containsTag_trim (s : jsstring) :
  containsTag s = false -> containsTag (trim s) = false.
Proof.
  intros H. unfold trim.
  destruct (trimEnd_prefix (trimStart s)) as (w & Hs & _).
  apply (containsTag_prefix _ w). rewrite <- Hs. now rewrite containsTag_trimStart.
Qed.

Lemma limitLength_noOuterSpace (s : jsstring) :
  noOuterSpace s -> noOuterSpace (limitLength s).
Proof.
  intros [Hhead Hlast]. unfold limitLength.
  destruct (1000 <? List.length s) eqn:E; [|now split].
  apply Nat.ltb_lt in E. unfold substring0. rewrite ellipsis_units. split.
  - destruct s as [|c s]; [simpl in E; lia|]. exact Hhead.
  - rewrite rev_app_distr. reflexivity.
Qed.

Lemma limitLength_no_tag (s : jsstring) :
  containsTag s = false -> containsTag (limitLength s) = false.
Proof.
  intros H. unfold limitLength. destruct (1000 <? List.length s); [|exact H].
  unfold substring0. rewrite ellipsis_units. now apply containsTag_cut.
Qed.

(** X10: whatever the model answers, the sanitized text holds no tag (no
    ['<'] with a ['>'] after it) and has no white space at its start or
    at its end. *)
Theorem X10_sanitized_text_is_plain (d : jsstring) :
  containsTag (sanitizeEnhancedDescription unicodeUpper d) = false /\
  noOuterSpace (sanitizeEnhancedDescription unicodeUpper d).
Proof.
  unfold sanitizeEnhancedDescription. split.
  - apply limitLength_no_tag, containsTag_trim.
    rewrite containsTag_collapseSpaces. apply containsTag_stripTags.
  - apply limitLength_noOuterSpace, trim_noOuterSpace.
Qed.

(** *** How often the remote model is called *)

Lemma tooShort_remoteCallDue (ai : AIEnhancementService) (raw : option jsstring) :
  remoteCallDue ai raw = enabled ai && negb (tooShort raw).
Proof.
  unfold remoteCallDue. f_equal. destruct raw as [[|c s]|]; try reflexivity.
  cbn [tooShort truthy negb orb]. rewrite Nat.ltb_antisym. now rewrite negb_involutive.
Qed.

(** X8: [enhanceDescription] calls the remote model exactly once when the
    engine is enabled and the trimmed text has 10 units or more, and not
    at all otherwise; it makes no other call, never retries, and returns
    a string in every case. *)
Theorem X8_remote_call_count
    (ai : AIEnhancementService) (raw : option jsstring) (rt : Runtime) :
  exists d,
    enhanceDescription unicodeUpper world ai raw rt =
    (logged rt (if remoteCallDue ai raw then [ModelGenerateContent] else []),
     Normal d).
Proof.
  rewrite tooShort_remoteCallDue. unfold enhanceDescription.
  destruct (enabled ai); cbn [negb andb].
  - destruct (tooShort raw); cbn [negb].
    + rewrite logged_nil. eexists; reflexivity.
    + unfold tryCatch, bind, perform, logged.
      destruct (outcome world ModelGenerateContent); [eexists; reflexivity|].
      destruct (truthy _ && _); eexists; reflexivity.
  - rewrite logged_nil. eexists; reflexivity.
Qed.

(** X9: when the call is due, returns, and the answer is not blank, the
    description returned is the sanitized answer: it does not depend on
    the raw text, holds no tag and has at most 1000 units. *)
Theorem X9_remote_answer_is_sanitized
    (ai : AIEnhancementService) (raw : option jsstring) (rt : Runtime) :
  remoteCallDue ai raw = true ->
  outcome world ModelGenerateContent = None ->
  trim (modelText world) <> [] ->
  let answer := sanitizeEnhancedDescription unicodeUpper (trim (modelText world)) in
  enhanceDescription unicodeUpper world ai raw rt =
    (logged rt [ModelGenerateContent], Normal answer) /\
  containsTag answer = false /\
  List.length answer <= 1000.
Proof.
  intros Hdue Hok Htext answer. split; [|split].
  - rewrite tooShort_remoteCallDue in Hdue.
    apply andb_true_iff in Hdue as [Hen Hlong]. apply negb_true_iff in Hlong.
    unfold enhanceDescription. rewrite Hen, Hlong. cbn [negb].
    unfold tryCatch, bind. rewrite (perform_ok world _ _ Hok).
    destruct (trim (modelText world)) as [|c t] eqn:E; [contradiction|].
    reflexivity.
  - unfold answer, sanitizeEnhancedDescription.
    apply limitLength_no_tag, containsTag_trim.
    rewrite containsTag_collapseSpaces. apply containsTag_stripTags.
  - apply sanitizeEnhancedDescription_le.
Qed.

(** *** What a successful result holds *)

(** The [try] block returns its last object literal, built from what the
    two extractors and the enhancement step answered. *)
Lemma scrapeBody_returns
    (ai : AIEnhancementService) (url : jsstring) (options : ScrapeOptions)
    (rt rt' : Runtime) (r : ScrapeResult) :
  scrapeBody unicodeUpper newURL cheerioLoad world ai url options rt = (rt', Normal r) ->
  exists page brand raw d,
    extractBrandName page = Normal brand /\
    extractDescription page = Normal raw /\
    (if wantsEnhancement options
     then exists rt1 rt2,
            enhanceDescription unicodeUpper world ai (Some raw) rt1 = (rt2, Normal d)
     else d = raw) /\
    r = {| url := url;
           brandName := Some brand;
           description := Some d;
           rawDescription := Some raw;
           enhanced := wantsEnhancement options && negb (eqb d raw);
           aiStats := Some (getStats ai);
           success := true;
           error := None;
           errorCategory := None;
           originalError := None |}.
Proof.
  unfold scrapeBody. intros H.
  do 10 (apply bind_normal_inv in H as (? & ? & _ & H); cbv beta in H).
  apply bind_normal_inv in H as (page & rt1 & _ & H); cbv beta in H.
  apply bind_normal_inv in H as (brand & rt2 & Hbrand & H); cbv beta in H.
  apply bind_normal_inv in H as (raw & rt3 & Hraw & H); cbv beta zeta in H.
  apply bind_normal_inv in H as (d & rt4 & Hd & H); cbv beta in H.
  unfold liftC in Hbrand, Hraw. injection Hbrand as _ Hbrand. injection Hraw as _ Hraw.
  unfold ret in H. injection H as _ <-.
  exists page, brand, raw, d. repeat split; try assumption.
  destruct (wantsEnhancement options).
  - unfold tryCatch in Hd.
    destruct (enhanceDescription_never_throws unicodeUpper world ai (Some raw) rt3)
      as (rt5 & d' & Henh).
    rewrite Henh in Hd. injection Hd as _ <-. now exists rt3, rt5.
  - unfold ret in Hd. now injection Hd as _ <-.
Qed.

Lemma enhanceDescription_le
    (ai : AIEnhancementService) (raw d : jsstring) (rt rt' : Runtime) :
  List.length raw <= 1000 ->
  enhanceDescription unicodeUpper world ai (Some raw) rt = (rt', Normal d) ->
  List.length d <= 1000.
Proof.
  intros Hraw. unfold enhanceDescription.
  destruct (enabled ai); cbn [negb].
  - destruct (tooShort (Some raw)).
    + intros [= _ <-]. destruct raw as [|c s]; [vm_compute; lia | exact Hraw].
    + unfold tryCatch, bind, perform.
      destruct (outcome world ModelGenerateContent).
      * intros [= _ <-]. exact (fallbackEnhancement_le unicodeUpper (Some raw)).
      * destruct (truthy _ && _); intros [= _ <-];
          [apply sanitizeEnhancedDescription_le
          | exact (fallbackEnhancement_le unicodeUpper (Some raw))].
  - intros [= _ <-]. exact (fallbackEnhancement_le unicodeUpper (Some raw)).
Qed.

(** X11: in every result, [enhanced] is true exactly when the scrape
    succeeded, enhancement was asked for, and [description] differs from
    [rawDescription], whether the difference comes from the remote model
    or from the local cleanup. *)
Theorem X11_enhanced_flag
    (ai : AIEnhancementService) (url : jsstring) (options : ScrapeOptions)
    (rt0 : Runtime) :
  exists rt r,
    scrapeWebsiteInstance unicodeUpper newURL cheerioLoad world ai url options rt0
      = (rt, Normal r) /\
    (enhanced r = true <->
     success r = true /\ wantsEnhancement options = true /\
     description r <> rawDescription r).
Proof.
  destruct (scrape_result_cases ai url options rt0)
    as (rt & r & Hrun & [(rt1 & Hbody) | (rt1 & e & Hbody & ->)]).
  - exists rt, r. split; [exact Hrun|].
    apply scrapeBody_returns in Hbody as (page & brand & raw & d & _ & _ & _ & ->).
    cbn [enhanced success description rawDescription]. split.
    + intros H. apply andb_true_iff in H as [Hw Hd]. apply negb_true_iff in Hd.
      apply eqb_neq in Hd. repeat split; [exact Hw|]. congruence.
    + intros (_ & Hw & Hd). rewrite Hw. cbn [andb]. apply negb_true_iff, eqb_neq.
      congruence.
  - exists rt, (failureResult url e). split; [exact Hrun|].
    unfold failureResult. destruct (classifyError e). cbn. split.
    + discriminate.
    + intros (H & _). discriminate.
Qed.

Lemma returned_result_bounds
    (ai : AIEnhancementService) (url : jsstring) (options : ScrapeOptions)
    (rt rt' : Runtime) (r : ScrapeResult) :
  scrapeBody unicodeUpper newURL cheerioLoad world ai url options rt = (rt', Normal r) ->
  exists brand raw d,
    brandName r = Some brand /\ List.length brand <= 255 /\
    rawDescription r = Some raw /\ List.length raw <= 1000 /\
    description r = Some d /\ List.length d <= 1000.
Proof.
  intros Hbody.
  apply scrapeBody_returns in Hbody
    as (page & brand & raw & d & Hbrand & Hraw & Hd & ->).
  rewrite extractBrandName_policy in Hbrand. injection Hbrand as <-.
  rewrite extractDescription_policy in Hraw. injection Hraw as <-.
  pose proof (substring0_length 1000
    (trim (firstNonEmpty
             [meta_description page; meta_og_description page;
              meta_twitter_description page; Some (p_first_text page)]
             (js "No description available")))) as Hrawlen.
  fold (descriptionPolicy page) in Hrawlen.
  exists (brandNamePolicy page), (descriptionPolicy page), d.
  cbn [brandName rawDescription description].
  repeat split; try assumption; [apply substring0_length|].
  destruct (wantsEnhancement options).
  - destruct Hd as (rt2 & rt3 & Hd).
    eapply enhanceDescription_le; [exact Hrawlen | exact Hd].
  - now subst d.
Qed.

(** X17: in every successful result the three content fields are set,
    the brand name has at most 255 units, and both the raw description
    and the description that is returned, enhanced or not, have at most
    1000. *)
Theorem X17_result_length_bounds
    (ai : AIEnhancementService) (url : jsstring) (options : ScrapeOptions)
    (rt0 : Runtime) :
  exists rt r,
    scrapeWebsiteInstance unicodeUpper newURL cheerioLoad world ai url options rt0
      = (rt, Normal r) /\
    (success r = true ->
     exists brand raw d,
       brandName r = Some brand /\ List.length brand <= 255 /\
       rawDescription r = Some raw /\ List.length raw <= 1000 /\
       description r = Some d /\ List.length d <= 1000).
Proof.
  destruct (scrape_result_cases ai url options rt0)
    as (rt & r & Hrun & [(rt1 & Hbody) | (rt1 & e & Hbody & ->)]).
  - exists rt, r. split; [exact Hrun|]. intros _.
    eapply returned_result_bounds, Hbody.
  - exists rt, (failureResult url e). split; [exact Hrun|].
    unfold failureResult. destruct (classifyError e). cbn. discriminate.
Qed.

(** *** When the remote model is left alone *)

Lemma emitsOnly_closeBrowser (P : Call -> bool) :
  (forall c, isClosing c = true -> P c = true) ->
  emitsOnly P (closeBrowser world).
Proof.
  intros HP. unfold closeBrowser.
  apply emitsOnly_bind; [apply emitsOnly_getBrowser | intros opened].
  destruct opened; [|apply emitsOnly_ret].
  apply emitsOnly_tryCatch; [|intros e; apply emitsOnly_ret].
  repeat (apply emitsOnly_bind; [now apply emitsOnly_perform, HP | intros _]).
  now apply emitsOnly_perform, HP.
Qed.

Lemma emitsOnly_scrapeWebsiteInstance (P : Call -> bool)
    (ai : AIEnhancementService) (url : jsstring) (options : ScrapeOptions) :
  (forall c, isRemoteCall c = false -> P c = true) ->
  (wantsEnhancement options = true -> enabled ai = true ->
   P ModelGenerateContent = true) ->
  emitsOnly P
    (scrapeWebsiteInstance unicodeUpper newURL cheerioLoad world ai url options).
Proof.
  intros HP Hremote. unfold scrapeWebsiteInstance.
  apply emitsOnly_tryFinally.
  - apply emitsOnly_tryCatch; [|intros e; apply emitsOnly_ret].
    rewrite scrapeBody_after_launch.
    apply emitsOnly_bind; [apply emitsOnly_liftC | intros valid].
    apply emitsOnly_bind.
    { destruct (negb valid); [apply emitsOnly_throw | apply emitsOnly_ret]. }
    intros _. apply emitsOnly_bind.
    { destruct (production world); [now apply emitsOnly_perform, HP | apply emitsOnly_ret]. }
    intros _. apply emitsOnly_bind; [now apply emitsOnly_perform, HP | intros _].
    apply emitsOnly_bind; [apply emitsOnly_setBrowser | intros _].
    apply emitsOnly_scrapeAfterLaunch; auto.
  - apply emitsOnly_closeBrowser. intros c Hc. apply HP. now destruct c.
Qed.

Lemma no_remote_call
    (ai : AIEnhancementService) (url : jsstring) (options : ScrapeOptions)
    (rt : Runtime) (c : Completion ScrapeResult) :
  wantsEnhancement options = false \/ enabled ai = false ->
  scrapeWebsiteInstance unicodeUpper newURL cheerioLoad world ai url options start
    = (rt, c) ->
  forallb (fun x => negb (isRemoteCall x)) (trace rt) = true.
Proof.
  intros Hoff Hrun.
  apply (emitsOnly_scrapeWebsiteInstance (fun x => negb (isRemoteCall x))) in Hrun
    as (_ & l & Hl & HP).
  - cbn [start trace app] in Hl. now rewrite Hl.
  - intros x Hx. now rewrite Hx.
  - intros Hw Hen. destruct Hoff; congruence.
Qed.

(** X12: with [options.enhanceDescription] set to [false] the run never
    calls the remote model, and its result, successful or not, has
    [description] equal to [rawDescription] and [enhanced] false. *)
Theorem X12_enhancement_opt_out
    (ai : AIEnhancementService) (url : jsstring) (options : ScrapeOptions) :
  enhanceDescriptionOption options = Some false ->
  exists rt r,
    scrapeWebsiteInstance unicodeUpper newURL cheerioLoad world ai url options start
      = (rt, Normal r) /\
    forallb (fun x => negb (isRemoteCall x)) (trace rt) = true /\
    description r = rawDescription r /\
    enhanced r = false.
Proof.
  intros Hopt.
  assert (Hw : wantsEnhancement options = false).
  { unfold wantsEnhancement. now rewrite Hopt. }
  destruct (scrape_result_cases ai url options start)
    as (rt & r & Hrun & [(rt1 & Hbody) | (rt1 & e & Hbody & ->)]).
  - exists rt, r. split; [exact Hrun|].
    split; [eapply no_remote_call; eauto|].
    apply scrapeBody_returns in Hbody as (page & brand & raw & d & _ & _ & Hd & ->).
    rewrite Hw in *. subst d. cbn. auto.
  - exists rt, (failureResult url e). split; [exact Hrun|].
    split; [eapply no_remote_call; eauto|].
    unfold failureResult. destruct (classifyError e). cbn. auto.
Qed.

(** X7: an engine built without an API key never calls the remote model;
    when enhancement is asked for, the description of a successful
    result is the local cleanup of its raw description, and the status
    snapshot reports the fallback mode. *)
Theorem X7_fallback_mode
    (ai : AIEnhancementService) (url : jsstring) (options : ScrapeOptions) :
  enabled ai = false ->
  exists rt r,
    scrapeWebsiteInstance unicodeUpper newURL cheerioLoad world ai url options start
      = (rt, Normal r) /\
    forallb (fun x => negb (isRemoteCall x)) (trace rt) = true /\
    (success r = true ->
     exists raw stats,
       rawDescription r = Some raw /\
       description r =
         Some (if wantsEnhancement options
               then fallbackEnhancement unicodeUpper (Some raw) else raw) /\
       aiStats r = Some stats /\
       stats_enabled stats = false /\ stats_fallbackMode stats = true).
Proof.
  intros Hoff.
  destruct (scrape_result_cases ai url options start)
    as (rt & r & Hrun & [(rt1 & Hbody) | (rt1 & e & Hbody & ->)]).
  - exists rt, r. split; [exact Hrun|].
    split; [eapply no_remote_call; eauto|]. intros _.
    apply scrapeBody_returns in Hbody as (page & brand & raw & d & _ & _ & Hd & ->).
    exists raw, (getStats ai). cbn [rawDescription description aiStats].
    unfold getStats. cbn [stats_enabled stats_fallbackMode]. rewrite Hoff.
    repeat split. f_equal.
    destruct (wantsEnhancement options); [|exact Hd].
    destruct Hd as (rt2 & rt3 & Hd). unfold enhanceDescription in Hd.
    rewrite Hoff in Hd. cbn [negb] in Hd. unfold ret in Hd. now injection Hd as _ <-.
  - exists rt, (failureResult url e). split; [exact Hrun|].
    split; [eapply no_remote_call; eauto|].
    unfold failureResult. destruct (classifyError e). cbn. discriminate.
Qed.

(** *** Edges of the extractors and of the cleanup *)

(** X13: a first source that holds nothing but white space still wins:
    an og:site_name of that kind gives the empty brand name, a
    description meta of that kind the empty description; the later
    sources and the literal are not used. *)
Theorem X13_blank_source_wins (p : Page) (s : jsstring) :
  s <> [] -> blank s = true ->
  (meta_og_site_name p = Some s -> extractBrandName p = Normal []) /\
  (meta_description p = Some s -> extractDescription p = Normal []).
Proof.
  intros Hs Hblank. destruct s as [|c s]; [contradiction|]. split; intros Hp.
  - rewrite extractBrandName_policy. unfold brandNamePolicy. rewrite Hp.
    cbn [firstNonEmpty]. now rewrite (trim_blank _ Hblank).
  - rewrite extractDescription_policy. unfold descriptionPolicy. rewrite Hp.
    cbn [firstNonEmpty]. now rewrite (trim_blank _ Hblank).
Qed.

Lemma limitLength_endsWithTerminal (s : jsstring) :
  endsWithTerminal s = true -> endsWithTerminal (limitLength s) = true.
Proof.
  intros H. unfold limitLength. destruct (1000 <? List.length s); [|exact H].
  rewrite ellipsis_units. now rewrite endsWithTerminal_app by discriminate.
Qed.

(** X14: on a text that is not blank the local cleanup answers a string
    that ends in [.], [!] or [?], also when only tags were left of the
    text and also when the result was cut. *)
Theorem X14_cleanup_ends_in_punctuation (raw : jsstring) :
  trim raw <> [] ->
  endsWithTerminal (fallbackEnhancement unicodeUpper (Some raw)) = true.
Proof.
  intros Hne. unfold fallbackEnhancement.
  assert (Hraw : truthy (Some raw) = true).
  { destruct raw; [now contradiction Hne | reflexivity]. }
  rewrite Hraw. cbn [negb orb].
  destruct (List.length (trim raw) =? 0) eqn:E.
  { apply Nat.eqb_eq in E. destruct (trim raw); [contradiction | discriminate]. }
  apply limitLength_endsWithTerminal.
  destruct (endsWithTerminal (capitalizeFirst unicodeUpper _)) eqn:He; cbn [negb].
  - exact He.
  - now rewrite endsWithTerminal_app by discriminate.
Qed.

(** *** POST /analyze *)

(** The scrape behind the handler always returns, with a failure object
    or with what the [try] block returned. *)
Lemma scrapeWebsite_cases
    (apiKey : option jsstring) (url : jsstring) (options : ScrapeOptions) :
  exists rt r,
    scrapeWebsite unicodeUpper newURL cheerioLoad world apiKey url options start
      = (rt, Normal r) /\
    ((success r = true /\ resultUrl r = url /\
      exists brand raw d,
        brandName r = Some brand /\ List.length brand <= 255 /\
        rawDescription r = Some raw /\ List.length raw <= 1000 /\
        description r = Some d /\ List.length d <= 1000) \/
     (success r = false /\ error r <> None /\ errorCategory r <> None)).
Proof.
  unfold scrapeWebsite. cbn [start trace]. fold start.
  destruct (scrape_result_cases {| enabled := truthy apiKey |} url options start)
    as (rt & r & Hrun & [(rt1 & Hbody) | (rt1 & e & Hbody & ->)]).
  - exists rt, r. split; [exact Hrun|]. left.
    pose proof (returned_result_bounds _ _ _ _ _ _ Hbody) as Hbounds.
    apply scrapeBody_returns in Hbody as (page & brand & raw & d & _ & _ & _ & Hr).
    split; [now rewrite Hr|]. split; [now rewrite Hr|]. exact Hbounds.
  - exists rt, (failureResult url e). split; [exact Hrun|]. right.
    destruct (failureResult_shape url e) as (Hs & _ & _ & _ & He & Hc). auto.
Qed.


(** X16: every row the handler inserts carries the URL of the request
    and three content fields that are set, with a brand name of at most
    255 units, the width of the [brand_name] column, and descriptions of
    at most 1000 units. *)
Theorem X16_inserted_row_fits
    (apiKey : option jsstring) (url : jsstring) (enhance : option bool)
    (row : AnalysisRow) :
  In row (run_inserts (analyzeHandler unicodeUpper newURL cheerioLoad world
                         Stored insertRow apiKey url enhance)) ->
  row_url row = url /\
  exists brand raw d,
    row_brand_name row = Some brand /\ List.length brand <= 255 /\
    row_raw_description row = Some raw /\ List.length raw <= 1000 /\
    row_description row = Some d /\ List.length d <= 1000.
Proof.
  unfold analyzeHandler.
  destruct (scrapeWebsite_cases apiKey url
              {| enhanceDescriptionOption :=
                   Some match enhance with Some b => b | None => true end |})
    as (rt & r & Hrun & Hr).
  rewrite Hrun.
  destruct Hr as [(Hs & Hu & Hb) | (Hs & _)]; rewrite Hs; cbn [negb run_inserts].
  - intros [<- | []]. cbn [row_url row_brand_name row_raw_description row_description].
    split; assumption.
  - intros [].
Qed.

(** *** POST /:id/enhance *)


(** The engine on a text that is long enough. *)
Lemma enhanceDescription_long (ai : AIEnhancementService) (raw : option jsstring) :
  tooShort raw = false ->
  exists d,
    enhanceDescription unicodeUpper world ai raw start =
    (logged start (if enabled ai then [ModelGenerateContent] else []), Normal d) /\
    (enabled ai = false -> d = fallbackEnhancement unicodeUpper raw).
Proof.
  intros Hlong. unfold enhanceDescription. rewrite Hlong.
  destruct (enabled ai); cbn [negb].
  - unfold tryCatch, bind, perform, logged.
    destruct (outcome world ModelGenerateContent);
      [eexists; split; [reflexivity | discriminate]|].
    destruct (truthy _ && _); eexists; (split; [reflexivity | discriminate]).
  - eexists. split; [reflexivity | auto].
Qed.


(** X19: the answer AI enhancement failed comes only from an update that
    rejected, with the message of that rejection, and never from the
    engine; and without an API key the update still sets [enhanced], its
    description being the local cleanup of the text. *)
Theorem X19_enhance_route_failure
    (apiKey : option jsstring) (fetched : Completion FetchReply) :
  let run := enhanceHandler unicodeUpper world Stored updateRecord apiKey fetched in
  (forall details, enh_response run = EnhancementFailed details ->
     exists update e,
       enh_updates run = [update] /\
       updateRecord update = Throw e /\ details = message e) /\
  (truthy apiKey = false ->
   forall update, In update (enh_updates run) ->
     upd_enhanced update = true /\
     upd_description update =
       fallbackEnhancement unicodeUpper (upd_raw_description update)).
Proof.
  cbv zeta. unfold enhanceHandler.
  destruct fetched as [[existingData|[code|]]|err];
    cbn [enh_updates enh_response].
  2:{ destruct (eqb code (js "PGRST116")); cbn;
        (split; [discriminate | intros _ ? []]). }
  2,3: split; [discriminate | intros _ ? []].
  destruct (rec_enhanced existingData) eqn:Henh; cbn [enh_updates enh_response].
  { split; [discriminate | intros _ ? []]. }
  destruct (tooShort _) eqn:Hshort; cbn [enh_updates enh_response].
  { split; [discriminate | intros _ ? []]. }
  destruct (enhanceDescription_long {| enabled := truthy apiKey |} _ Hshort)
    as (d & Hrun & Hoff).
  rewrite Hrun. cbn [enh_updates enh_response enabled] in *. split.
  - intros details.
    destruct (updateRecord _) as [[data|dberr]|e] eqn:E; try discriminate.
    intros [= <-]. eauto.
  - intros Hkey update [<- | []]. cbn [upd_enhanced upd_description upd_raw_description].
    split; [reflexivity | now apply Hoff].
Qed.

(** *** The current loop never comes round again *)

Lemma emitsOnly_navigate (P : Call -> bool) :
  P (PageGoto 0) = true -> P (PageContent 0) = true ->
  emitsOnly P (navigate world).
Proof.
  intros Hg Hc. unfold navigate. cbn [navigationLoop Nat.eqb].
  apply emitsOnly_tryCatch; [|intros e; apply emitsOnly_throw].
  repeat (apply emitsOnly_bind; [now apply emitsOnly_perform | intros _]).
  apply emitsOnly_ret.
Qed.

Lemma emitsOnly_firstAttempt_enhanceDescription
    (ai : AIEnhancementService) (raw : option jsstring) :
  emitsOnly firstAttemptOnly (enhanceDescription unicodeUpper world ai raw).
Proof. now apply emitsOnly_enhanceDescription. Qed.

(** X20: whatever the world answers, a run of [scrapeWebsiteInstance]
    takes no delay and never loads or reads the page in a second attempt:
    the retry branch of its loop is never taken. *)
Theorem X20_single_navigation_attempt
    (ai : AIEnhancementService) (url : jsstring) (options : ScrapeOptions) :
  exists rt r,
    scrapeWebsiteInstance unicodeUpper newURL cheerioLoad world ai url options start
      = (rt, Normal r) /\
    forallb firstAttemptOnly (trace rt) = true.
Proof.
  destruct (scrape_result_cases ai url options start) as (rt & r & Hrun & _).
  exists rt, r. split; [exact Hrun|].
  assert (Hemit : emitsOnly firstAttemptOnly
            (scrapeWebsiteInstance unicodeUpper newURL cheerioLoad world
               ai url options)).
  { unfold scrapeWebsiteInstance. apply emitsOnly_tryFinally.
    - apply emitsOnly_tryCatch; [|intros e; apply emitsOnly_ret].
      unfold scrapeBody.
      apply emitsOnly_bind; [apply emitsOnly_liftC | intros valid].
      apply emitsOnly_bind.
      { destruct (negb valid); [apply emitsOnly_throw | apply emitsOnly_ret]. }
      intros _. apply emitsOnly_bind.
      { destruct (production world);
          [now apply emitsOnly_perform | apply emitsOnly_ret]. }
      intros _.
      apply emitsOnly_bind; [now apply emitsOnly_perform | intros _].
      apply emitsOnly_bind; [apply emitsOnly_setBrowser | intros _].
      do 4 (apply emitsOnly_bind; [now apply emitsOnly_perform | intros _]).
      apply emitsOnly_bind; [now apply emitsOnly_navigate | intros content].
      apply emitsOnly_bind; [apply emitsOnly_liftC | intros page].
      apply emitsOnly_bind; [apply emitsOnly_liftC | intros brand].
      apply emitsOnly_bind; [apply emitsOnly_liftC | intros raw].
      cbv zeta. apply emitsOnly_bind; [|intros d; apply emitsOnly_ret].
      destruct (wantsEnhancement options); [|apply emitsOnly_ret].
      apply emitsOnly_tryCatch; [|intros e; apply emitsOnly_ret].
      apply emitsOnly_firstAttempt_enhanceDescription.
    - apply emitsOnly_closeBrowser. intros c Hc. now destruct c. }
  apply Hemit in Hrun as (_ & l & Hl & HP). cbn [start trace app] in Hl.
  now rewrite Hl.
Qed.


End Coverage.

(* ================================================================= *)
(** ** The further properties on the sample platform *)

Lemma only_first_load_fails (e : JsError) (reply : jsstring) (c : Call) :
  c <> PageGoto 0 -> outcome (sampleWorld [PageGoto 0] e reply) c = None.
Proof.
  intros Hc. destruct c as [| | | | | |[|n]|n|n| | | |]; try reflexivity.
  now contradiction Hc.
Qed.

Lemma X1_navigation_attempts_bounded_witness :
  exists l c,
    navigationLoop flakyWorld 2 0 2000 start = (logged start l, c) /\
    List.length (filter isGoto l) <= 2 /\
    List.length (filter isSleep l) + 1 = List.length (filter isGoto l) /\
    (forall ms, In (Sleep ms) l -> ms = 2000) /\
    match c with
    | Normal content =>
        content = Some (pageHtml flakyWorld (List.length (filter isSleep l)))
    | Throw e =>
        List.length (filter isGoto l) = 2 /\
        (outcome flakyWorld (PageGoto (2 - 1)) = Some e \/
         outcome flakyWorld (PageContent (2 - 1)) = Some e)
    end.
Proof.
  apply (X1_navigation_attempts_bounded flakyWorld 2 2000 start). lia.
Defined.

Lemma X2_legacy_loop_retries_once_witness :
  (outcome flakyWorld (PageGoto 1) = None ->
   outcome flakyWorld (PageContent 1) = None ->
   navigateLegacy flakyWorld start =
   (logged start [PageGoto 0; Sleep 2000; PageGoto 1; PageContent 1],
    Normal (Some (pageHtml flakyWorld 1)))) /\
  (forall e', outcome flakyWorld (PageGoto 1) = Some e' ->
   navigateLegacy flakyWorld start =
   (logged start [PageGoto 0; Sleep 2000; PageGoto 1], Throw e')).
Proof.
  apply (X2_legacy_loop_retries_once flakyWorld connectionReset start).
  reflexivity.
Defined.

Lemma X6_domain_not_found_witness :
  exists rt r,
    scrapeWebsiteInstance sampleUpper sampleURL sampleCheerio dnsWorld
      {| enabled := true |} acmeUrl defaults start = (rt, Normal r) /\
    success r = false /\
    errorCategory r = Some (js "DOMAIN_NOT_FOUND") /\
    error r = Some (js "Website domain could not be found") /\
    originalError r = Some (message dnsError) /\
    trace rt =
      (if production dnsWorld then [ChromiumExecutablePath] else []) ++
      [PuppeteerLaunch; BrowserNewPage; PageSetViewport;
       PageSetDefaultNavigationTimeout; PageSetDefaultTimeout; PageGoto 0;
       BrowserPages; PagesClose; BrowserClose].
Proof.
  apply (X6_domain_not_found sampleUpper sampleURL sampleCheerio dnsWorld
           {| enabled := true |} acmeUrl defaults dnsError).
  - vm_compute. reflexivity.
  - reflexivity.
  - apply only_first_load_fails.
  - left. vm_compute. reflexivity.
Defined.

Lemma X7_fallback_mode_witness :
  exists rt r,
    scrapeWebsiteInstance sampleUpper sampleURL sampleCheerio calmWorld
      {| enabled := false |} acmeUrl defaults start = (rt, Normal r) /\
    forallb (fun x => negb (isRemoteCall x)) (trace rt) = true /\
    (success r = true ->
     exists raw stats,
       rawDescription r = Some raw /\
       description r =
         Some (if wantsEnhancement defaults
               then fallbackEnhancement sampleUpper (Some raw) else raw) /\
       aiStats r = Some stats /\
       stats_enabled stats = false /\ stats_fallbackMode stats = true).
Proof.
  apply (X7_fallback_mode sampleUpper sampleURL sampleCheerio calmWorld
           {| enabled := false |} acmeUrl defaults).
  reflexivity.
Defined.

Lemma X9_remote_answer_is_sanitized_witness :
  enhanceDescription sampleUpper replyWorld {| enabled := true |}
    (Some (js "A great shop")) start =
    (logged start [ModelGenerateContent],
     Normal (sanitizeEnhancedDescription sampleUpper (trim (modelText replyWorld)))) /\
  containsTag (sanitizeEnhancedDescription sampleUpper (trim (modelText replyWorld)))
    = false /\
  List.length (sanitizeEnhancedDescription sampleUpper (trim (modelText replyWorld)))
    <= 1000.
Proof.
  apply (X9_remote_answer_is_sanitized sampleUpper replyWorld {| enabled := true |}
           (Some (js "A great shop")) start).
  - vm_compute. reflexivity.
  - reflexivity.
  - vm_compute. discriminate.
Defined.

Example sanitized_reply :
  sanitizeEnhancedDescription sampleUpper (trim (modelText replyWorld))
  = js "A truly great shop.".
Proof. vm_compute. reflexivity. Qed.

Lemma X12_enhancement_opt_out_witness :
  exists rt r,
    scrapeWebsiteInstance sampleUpper sampleURL sampleCheerio calmWorld
      {| enabled := true |} acmeUrl noEnhancement start = (rt, Normal r) /\
    forallb (fun x => negb (isRemoteCall x)) (trace rt) = true /\
    description r = rawDescription r /\
    enhanced r = false.
Proof.
  apply (X12_enhancement_opt_out sampleUpper sampleURL sampleCheerio calmWorld
           {| enabled := true |} acmeUrl noEnhancement).
  reflexivity.
Defined.

Lemma X13_blank_source_wins_witness :
  (meta_og_site_name blankPage = Some (js "  ") ->
   extractBrandName blankPage = Normal []) /\
  (meta_description blankPage = Some (js "  ") ->
   extractDescription blankPage = Normal []).
Proof.
  apply (X13_blank_source_wins blankPage (js "  ")).
  - discriminate.
  - vm_compute. reflexivity.
Defined.

Lemma X14_cleanup_ends_in_punctuation_witness :
  endsWithTerminal (fallbackEnhancement sampleUpper (Some (js "<b></b>"))) = true.
Proof.
  apply (X14_cleanup_ends_in_punctuation sampleUpper (js "<b></b>")).
  vm_compute. discriminate.
Defined.

Lemma X16_inserted_row_fits_witness :
  row_url acmeRow = acmeUrl /\
  exists brand raw d,
    row_brand_name acmeRow = Some brand /\ List.length brand <= 255 /\
    row_raw_description acmeRow = Some raw /\ List.length raw <= 1000 /\
    row_description acmeRow = Some d /\ List.length d <= 1000.
Proof.
  apply (X16_inserted_row_fits sampleUpper sampleURL sampleCheerio calmWorld
           AnalysisRow echoInsert None acmeUrl None acmeRow).
  vm_compute. left. reflexivity.
Defined.

(** The handler on the sample platform: the row is stored and echoed. *)
Example analyze_sample_request :
  let run := analyzeHandler sampleUpper sampleURL sampleCheerio calmWorld
               AnalysisRow echoInsert None acmeUrl None in
  run_inserts run = [acmeRow] /\
  statusOf (run_response run) = Some 201 /\
  forallb (fun x => negb (isRemoteCall x)) (run_calls run) = true.
Proof. vm_compute. repeat split. Qed.

(** The enhance route on the sample platform: without an API key the
    record is updated with its local cleanup and marked enhanced; when
    the update rejects, the answer is the 500 of the catch block. *)
Example enhance_sample_record :
  let run := enhanceHandler sampleUpper calmWorld StoredRecord brokenUpdate
               None (Normal (Fetched plainRecord)) in
  enh_calls run = [] /\
  enh_updates run =
    [{| upd_description := js "A great shop for all.";
        upd_raw_description := Some (js "a great shop for all");
        upd_enhanced := true |}] /\
  enh_response run = EnhancementFailed (js "fetch failed").
Proof. vm_compute. repeat split. Qed.
